(** * xgboost-js: a shallow embedding of [src/xgboost.js]

    The development follows the JavaScript source class by class.

    - JavaScript numbers are IEEE 754 binary64 values; they are carried by
      Rocq's primitive [float], whose operations are the same binary64
      operations (round to nearest even, one NaN).
    - A value that may be [undefined] (an array read out of range, a missing
      field of the parameter record) is an [option]; [None] is [undefined].
    - Array indices, loop counters and the recursion depth are naturals or
      integers.  The data model types [maxDepth] and [numRounds] as integers,
      so they are carried as [Z] (a double is exact on integers below 2^53).
    - A thrown exception is the [Throw] outcome of a small error monad; the
      only exception the class can raise is the [TypeError] of reading a
      property of [undefined].  The class has no [throw] statement.
    - [Array.prototype.sort] is a stable insertion sort, the order the
      language prescribes for a consistent comparator.  The comparator of the
      split search, [X[a][f] - X[b][f]], is consistent when no feature value
      is NaN or missing ([sortedIndices_ascending]); when one is, the
      language leaves the order to the implementation, and the insertion
      sort gives one of the orders it allows.  What is stated of the sorted
      order itself is stated for feature values that are numbers.
    - [Math.exp], which the language leaves to the implementation, is a
      parameter of the prediction functions. *)

From Stdlib Require Import Floats ZArith List Bool Arith Lia Setoid Permutation Sorted.
From Stdlib Require Uint63 String.
Import String.StringSyntax.
Delimit Scope string_scope with string.
Import ListNotations.

(* Decimal literals denote the nearest double, as in JavaScript. *)
Set Warnings "-inexact-float".

(** ** JavaScript values and outcomes *)

Module JS.

Inductive error : Set := TypeError.

(** The outcome of running a method: a value, an exception, or a
    recursion budget that ran out (shown never to happen, see
    [buildTree_fuel_enough]). *)
Inductive result (A : Type) : Type :=
| Ok (a : A)
| Throw (e : error)
| Fuel.

Arguments Ok {A} a.
Arguments Throw {A} e.
Arguments Fuel {A}.

Definition bind {A B : Type} (r : result A) (k : A -> result B) : result B :=
  match r with
  | Ok a => k a
  | Throw e => Throw e
  | Fuel => Fuel
  end.

(** [number | undefined] *)
Definition value : Set := option float.

(** ToNumber: [undefined] becomes NaN. *)
Definition ToNumber (v : value) : float :=
  match v with
  | Some x => x
  | None => nan
  end.

(** [a === b] on [number | undefined]. *)
Definition strict_eq (a b : value) : bool :=
  match a, b with
  | Some x, Some y => PrimFloat.eqb x y
  | None, None => true
  | _, _ => false
  end.

(** Truthiness of a number: [0], [-0] and [NaN] are falsy. *)
Definition truthy (x : float) : bool := negb (PrimFloat.is_zero x || PrimFloat.is_nan x).

(** [v || d] where [v] is a number or [undefined]. *)
Definition or_default (v : value) (d : float) : float :=
  match v with
  | Some x => if truthy x then x else d
  | None => d
  end.

(** [v || d] where [v] is an integer or [undefined]. *)
Definition or_defaultZ (v : option Z) (d : Z) : Z :=
  match v with
  | Some x => if Z.eqb x 0 then d else x
  | None => d
  end.

(** An array length (or any natural below 2^53) as a number. *)
Definition of_nat (n : nat) : float := PrimFloat.of_uint63 (Uint63.of_Z (Z.of_nat n)).

(** [a[i]] for an array of [number | undefined]: out of range reads
    [undefined]. *)
Definition get (a : list value) (i : nat) : value :=
  match nth_error a i with
  | Some v => v
  | None => None
  end.

(** [a[i] = v]: a write past the end extends the array, leaving holes. *)
Definition set (a : list value) (i : nat) (v : value) : list value :=
  if i <? length a
  then firstn i a ++ v :: skipn (S i) a
  else a ++ repeat None (i - length a) ++ [v].

(** [a.map((x, idx) => f(x, idx))] *)
Fixpoint mapi_from {A B : Type} (f : A -> nat -> B) (i : nat) (l : list A) : list B :=
  match l with
  | [] => []
  | x :: l' => f x i :: mapi_from f (S i) l'
  end.

Definition mapi {A B : Type} (f : A -> nat -> B) (l : list A) : list B :=
  mapi_from f 0 l.

(** The same with a callback that may throw: the first exception aborts. *)
Fixpoint mapiM_from {A B : Type} (f : A -> nat -> result B) (i : nat) (l : list A)
  : result (list B) :=
  match l with
  | [] => Ok []
  | x :: l' =>
      bind (f x i) (fun b =>
      bind (mapiM_from f (S i) l') (fun bs => Ok (b :: bs)))
  end.

Definition mapiM {A B : Type} (f : A -> nat -> result B) (l : list A) : result (list B) :=
  mapiM_from f 0 l.

(** [Array.prototype.sort(cmp)]: a stable sort; [a] goes after [b] exactly
    when [cmp(a, b) > 0], and a NaN comparison result counts as [+0].  For a
    consistent comparator this is the order of the language; for any other
    the language leaves the order to the implementation, and only that the
    result is a permutation of the array is common to all of them. *)
Fixpoint insert_by (cmp : nat -> nat -> float) (a : nat) (l : list nat) : list nat :=
  match l with
  | [] => [a]
  | b :: l' => if (0 <? cmp a b)%float then b :: insert_by cmp a l' else a :: l
  end.

Definition sort (cmp : nat -> nat -> float) (l : list nat) : list nat :=
  fold_right (insert_by cmp) [] l.

End JS.

Import JS.

Notation "x <- c1 ;; c2" := (JS.bind c1 (fun x => c2))
  (at level 61, c1 at next level, right associativity).

(** ** class Node *)

(** A node built by [_buildTree] either has [isLeaf = true] and a [value], or
    has [featureIndex], [threshold], [left] and [right] set. *)
Inductive Node : Set :=
| Leaf (value : float)
| Internal (featureIndex : nat) (threshold : float) (left right : Node).

(** An element of [this.trees]: the object [{ root: tree }]. *)
Record Tree : Set := { root : Node }.

(** ** class XGBoost *)

(** The [params] argument of the constructor; an absent field is [None]. *)
Record Params : Set := {
  p_learningRate : value;
  p_maxDepth : option Z;
  p_minChildWeight : value;
  p_numRounds : option Z
}.

Record XGBoost : Set := {
  learningRate : float;
  maxDepth : Z;
  minChildWeight : float;
  numRounds : Z;
  trees : list Tree
}.

(** [params = {}] *)
Definition no_params : Params :=
  {| p_learningRate := None; p_maxDepth := None;
     p_minChildWeight := None; p_numRounds := None |}.

Definition constructor (params : Params) : XGBoost :=
  {| learningRate := or_default (p_learningRate params) 0.3;
     maxDepth := or_defaultZ (p_maxDepth params) 4;
     minChildWeight := or_default (p_minChildWeight params) 1;
     numRounds := or_defaultZ (p_numRounds params) 100;
     trees := [] |}.

Definition with_trees (this : XGBoost) (ts : list Tree) : XGBoost :=
  {| learningRate := learningRate this;
     maxDepth := maxDepth this;
     minChildWeight := minChildWeight this;
     numRounds := numRounds this;
     trees := ts |}.

(** *** _predict *)

(** [x] is [undefined] when [fit] reads a row past the end of [X]; reading a
    property of [undefined] throws. *)
Fixpoint _predict (x : option (list float)) (node : Node) : result float :=
  match node with
  | Leaf v => Ok v
  | Internal featureIndex threshold l r =>
      match x with
      | None => Throw TypeError
      | Some row =>
          if (ToNumber (nth_error row featureIndex) <=? threshold)%float
          then _predict x l
          else _predict x r
      end
  end.

(** *** _buildTree *)

Definition eps : float := 1e-10.

Record Split : Set := {
  s_featureIndex : nat;
  s_threshold : float;
  leftIndices : list nat;
  rightIndices : list nat
}.

(** [X[a][featureIdx]] for a row index [a] below [X.length]. *)
Definition feature (X : list (list float)) (a featureIdx : nat) : value :=
  nth_error (nth a X []) featureIdx.

(** [gradients.reduce((a, b) => a + b, 0)] *)
Definition sum_of (gradients : list value) : float :=
  fold_left (fun a b => (a + ToNumber b)%float) gradients 0%float.

(** [Array.from({length: X.length}, (_, i) => i).sort((a, b) => X[a][f] - X[b][f])] *)
Definition sortedIndices (X : list (list float)) (featureIdx : nat) : list nat :=
  JS.sort (fun a b => (ToNumber (feature X a featureIdx) - ToNumber (feature X b featureIdx))%float)
          (seq 0 (length X)).

(** The variables of the split search: the running sums of the inner loop
    and the best split so far. *)
Record Scan : Set := {
  leftSum : float;
  leftCount : float;
  rightSum : float;
  rightCount : float
}.

Definition Best : Set := (float * option Split)%type.

Definition gain_of (sc : Scan) (sumGrad count : float) : float :=
  ((leftSum sc * leftSum sc) / (leftCount sc + eps) +
   (rightSum sc * rightSum sc) / (rightCount sc + eps) -
   (sumGrad * sumGrad) / (count + eps))%float.

(** The four updates at the head of the inner loop body. *)
Definition advance (gradients : list value) (sorted : list nat) (sc : Scan) (i : nat) : Scan :=
  let idx := nth i sorted 0 in
  {| leftSum := (leftSum sc + ToNumber (get gradients idx))%float;
     leftCount := (leftCount sc + 1)%float;
     rightSum := (rightSum sc - ToNumber (get gradients idx))%float;
     rightCount := (rightCount sc - 1)%float |}.

(** One iteration of [for (let i = 0; i < sortedIndices.length - 1; i++)]. *)
Definition scan_step (X : list (list float)) (gradients : list value)
    (sumGrad count : float) (featureIdx : nat) (sorted : list nat)
    (st : Scan * Best) (i : nat) : Scan * Best :=
  let '(sc, best) := st in
  let sc' := advance gradients sorted sc i in
  let lo := feature X (nth i sorted 0) featureIdx in
  let hi := feature X (nth (i + 1) sorted 0) featureIdx in
  if strict_eq lo hi then (sc', best)
  else
    let gain := gain_of sc' sumGrad count in
    if (fst best <? gain)%float
    then (sc', (gain,
                Some {| s_featureIndex := featureIdx;
                        s_threshold := ((ToNumber lo + ToNumber hi) / 2)%float;
                        leftIndices := firstn (i + 1) sorted;
                        rightIndices := skipn (i + 1) sorted |}))
    else (sc', best).

(** One iteration of [for (let featureIdx = 0; featureIdx < X[0].length; featureIdx++)]. *)
Definition feature_step (X : list (list float)) (gradients : list value)
    (sumGrad count : float) (best : Best) (featureIdx : nat) : Best :=
  let sorted := sortedIndices X featureIdx in
  let init := {| leftSum := 0; leftCount := 0; rightSum := sumGrad; rightCount := count |} in
  snd (fold_left (scan_step X gradients sumGrad count featureIdx sorted)
                 (seq 0 (length sorted - 1)) (init, best)).

(** The whole split search; [X[0].length] throws when [X] is empty. *)
Definition findBestSplit (X : list (list float)) (gradients : list value)
    (sumGrad count : float) : result Best :=
  match X with
  | [] => Throw TypeError
  | row0 :: _ =>
      Ok (fold_left (feature_step X gradients sumGrad count)
                    (seq 0 (length row0)) (0%float, None))
  end.

(** The stopping conditions at the head of [_buildTree]. *)
Definition stop (this : XGBoost) (depth : Z) (sumGrad count : float) : bool :=
  (depth >=? maxDepth this)%Z
  || (count <? minChildWeight this)%float
  || (abs sumGrad <? eps)%float.

Definition leaf_of (sumGrad count : float) : Node := Leaf (sumGrad / (count + eps))%float.

(** [indices.map(i => X[i])] and [indices.map(i => gradients[i])] *)
Definition rows (X : list (list float)) (indices : list nat) : list (list float) :=
  map (fun i => nth i X []) indices.

Definition grads (gradients : list value) (indices : list nat) : list value :=
  map (get gradients) indices.

(** The recursion shrinks [X] at every level; [fuel] bounds its depth. *)
Fixpoint buildTree_fuel (fuel : nat) (this : XGBoost) (X : list (list float))
    (gradients : list value) (depth : Z) : result Node :=
  let sumGrad := sum_of gradients in
  let count := of_nat (length gradients) in
  if stop this depth sumGrad count then Ok (leaf_of sumGrad count)
  else
    best <- findBestSplit X gradients sumGrad count ;;
    match snd best with
    | None => Ok (leaf_of sumGrad count)
    | Some bestSplit =>
        if (fst best <? eps)%float then Ok (leaf_of sumGrad count)
        else
          match fuel with
          | O => Fuel
          | S fuel' =>
              l <- buildTree_fuel fuel' this (rows X (leftIndices bestSplit))
                        (grads gradients (leftIndices bestSplit)) (depth + 1) ;;
              r <- buildTree_fuel fuel' this (rows X (rightIndices bestSplit))
                         (grads gradients (rightIndices bestSplit)) (depth + 1) ;;
              Ok (Internal (s_featureIndex bestSplit) (s_threshold bestSplit) l r)
          end
    end.

Definition _buildTree (this : XGBoost) (X : list (list float))
    (gradients : list value) (depth : Z) : result Node :=
  buildTree_fuel (length X) this X gradients depth.

(** *** fit *)

Definition push (this : XGBoost) (tree : Node) : XGBoost :=
  with_trees this (trees this ++ [{| root := tree |}]).

(** [y.map((actual, idx) => actual - predictions[idx])] *)
Definition gradients_of (y : list float) (predictions : list value) : list value :=
  mapi (fun actual idx => Some (actual - ToNumber (get predictions idx))%float) y.

(** [predictions.map((pred, idx) => pred + this.learningRate * this._predict(X[idx], tree))] *)
Definition update_predictions (this : XGBoost) (X : list (list float)) (tree : Node)
    (predictions : list value) : result (list value) :=
  mapiM (fun pred idx =>
           update <- _predict (nth_error X idx) tree ;;
           Ok (Some (ToNumber pred + learningRate this * update)%float))
        predictions.

(** The body of [for (let i = 0; i < this.numRounds; i++)], run [n] more
    times.  [this.trees.push] mutates the model, so the model is returned
    also when a later statement throws. *)
Fixpoint fit_loop (n : nat) (this : XGBoost) (X : list (list float)) (y : list float)
    (predictions : list value) : XGBoost * result unit :=
  match n with
  | O => (this, Ok tt)
  | S n' =>
      let gradients := gradients_of y predictions in
      match _buildTree this X gradients 0 with
      | Ok tree =>
          let this' := push this tree in
          match update_predictions this' X tree predictions with
          | Ok predictions' => fit_loop n' this' X y predictions'
          | Throw e => (this', Throw e)
          | Fuel => (this', Fuel)
          end
      | Throw e => (this, Throw e)
      | Fuel => (this, Fuel)
      end
  end.

(** [new Array(y.length).fill(0.5)] *)
Definition base_predictions (y : list float) : list value :=
  repeat (Some 0.5%float) (length y).

Definition fit (this : XGBoost) (X : list (list float)) (y : list float)
  : XGBoost * result unit :=
  fit_loop (Z.to_nat (numRounds this)) this X y (base_predictions y).

(** *** predictSingle, predictBatch *)

Section Prediction.

(** [Math.exp], which the language leaves to the implementation. *)
Variable Math_exp : float -> float.

(** [for (const tree of this.trees) pred += this.learningRate * this._predict(x, tree.root)] *)
Fixpoint predict_loop (this : XGBoost) (x : list float) (ts : list Tree) (pred : float)
  : result float :=
  match ts with
  | [] => Ok pred
  | tree :: ts' =>
      update <- _predict (Some x) (root tree) ;;
      predict_loop this x ts' (pred + learningRate this * update)%float
  end.

Definition predictSingle (this : XGBoost) (x : list float) : result float :=
  pred <- predict_loop this x (trees this) 0.5%float ;;
  Ok (1 / (1 + Math_exp (- pred)))%float.

Definition predictBatch (this : XGBoost) (X : list (list float)) : result (list float) :=
  mapiM (fun x _ => predictSingle this x) X.

End Prediction.

(** *** getFeatureImportance *)

Fixpoint _getNumFeatures (node : Node) : nat :=
  match node with
  | Leaf _ => 0
  | Internal featureIndex _ l r =>
      Nat.max (featureIndex + 1) (Nat.max (_getNumFeatures l) (_getNumFeatures r))
  end.

(** [importance[node.featureIndex]++] reads the entry, converts it to a
    number, adds one and writes it back. *)
Fixpoint _traverseTreeForImportance (node : Node) (importance : list value) : list value :=
  match node with
  | Leaf _ => importance
  | Internal featureIndex _ l r =>
      let importance1 :=
        JS.set importance featureIndex
               (Some (ToNumber (get importance featureIndex) + 1)%float) in
      _traverseTreeForImportance r (_traverseTreeForImportance l importance1)
  end.

Definition getFeatureImportance (this : XGBoost) : list value :=
  match trees this with
  | [] => []
  | tree0 :: _ =>
      let numFeatures := _getNumFeatures (root tree0) in
      fold_left (fun importance tree => _traverseTreeForImportance (root tree) importance)
                (trees this) (repeat (Some 0%float) numFeatures)
  end.

(** *** toJSON, fromJSON *)

Record JSON : Set := {
  j_trees : list Tree;
  j_params : Params
}.

Definition toJSON (this : XGBoost) : JSON :=
  {| j_trees := trees this;
     j_params := {| p_learningRate := Some (learningRate this);
                    p_maxDepth := Some (maxDepth this);
                    p_minChildWeight := Some (minChildWeight this);
                    p_numRounds := Some (numRounds this) |} |}.

Definition fromJSON (json : JSON) : XGBoost :=
  let model := constructor (j_params json) in
  with_trees model (j_trees json).

(** ** Vocabulary of the properties *)

(** A split of [n] samples: a cut strictly inside a permutation of the
    sample indices [0 .. n-1]. *)
Definition valid_split (n : nat) (s : Split) : Prop :=
  exists sorted i,
    Permutation sorted (seq 0 n) /\ i + 1 < n /\
    leftIndices s = firstn (i + 1) sorted /\
    rightIndices s = skipn (i + 1) sorted.

Definition valid_best (n : nat) (best : Best) : Prop :=
  forall s, snd best = Some s -> valid_split n s.

(** The depth of every node of a tree whose root is at [depth]. *)
Fixpoint node_depths (depth : Z) (node : Node) : list Z :=
  depth ::
  match node with
  | Leaf _ => []
  | Internal _ _ l r => node_depths (depth + 1) l ++ node_depths (depth + 1) r
  end.

Definition is_leaf (node : Node) : bool :=
  match node with
  | Leaf _ => true
  | Internal _ _ _ _ => false
  end.

(** The rounds of [fit]: the gradients computed in each round whose tree was
    built, with that tree.  It runs the loop of [fit_loop] and records what
    the loop computes. *)
Fixpoint fit_rounds (n : nat) (this : XGBoost) (X : list (list float)) (y : list float)
    (predictions : list value) : list (list value * Node) :=
  match n with
  | O => []
  | S n' =>
      let gradients := gradients_of y predictions in
      match _buildTree this X gradients 0 with
      | Ok tree =>
          (gradients, tree) ::
          match update_predictions (push this tree) X tree predictions with
          | Ok predictions' => fit_rounds n' (push this tree) X y predictions'
          | _ => []
          end
      | _ => []
      end
  end.

Definition tree_of_round (round : list value * Node) : Tree := {| root := snd round |}.

(** [c] is [Lt] or [Eq]. *)
Definition le_cmp (c : comparison) : bool :=
  match c with
  | Gt => false
  | _ => true
  end.

(** [a] is a number, not NaN. *)
Definition is_num (a : float) : Prop := (a =? a)%float = true.

(** The running sums after the first [k] iterations of the inner loop. *)
Definition scan_after (gradients : list value) (sumGrad count : float)
    (sorted : list nat) (k : nat) : Scan :=
  fold_left (advance gradients sorted) (seq 0 k)
            {| leftSum := 0; leftCount := 0; rightSum := sumGrad; rightCount := count |}.

(** The gain of the boundary after position [i] of the sorted order of
    feature [f], when the two adjacent feature values differ: a candidate
    split.  A boundary between equal values is no candidate. *)
Definition boundary_gain (X : list (list float)) (gradients : list value)
    (sumGrad count : float) (f i : nat) : list float :=
  let sorted := sortedIndices X f in
  if strict_eq (feature X (nth i sorted 0) f) (feature X (nth (i + 1) sorted 0) f)
  then []
  else [gain_of (scan_after gradients sumGrad count sorted (i + 1)) sumGrad count].

(** The gains of all candidate splits of a call, feature by feature. *)
Definition candidate_gains (X : list (list float)) (gradients : list value)
    (sumGrad count : float) : list float :=
  flat_map (fun f => flat_map (boundary_gain X gradients sumGrad count f)
                              (seq 0 (length X - 1)))
           (seq 0 (length (hd [] X))).

(** What the leaf test reads of the best split so far: its gain and whether
    there is one. *)
Definition summary (best : Best) : float * bool :=
  (fst best, match snd best with Some _ => true | None => false end).

(** [if (gain > bestGain) { bestGain = gain; bestSplit = ... }] on the summary. *)
Definition track (b : float * bool) (gain : float) : float * bool :=
  if (fst b <? gain)%float then (gain, true) else b.

(** The number of Internal nodes of a tree, and of an ensemble, that split
    on feature [f]. *)
Fixpoint splits_on (f : nat) (node : Node) : nat :=
  match node with
  | Leaf _ => 0
  | Internal featureIndex _ l r =>
      (if featureIndex =? f then 1 else 0) + splits_on f l + splits_on f r
  end.

Definition ensemble_splits_on (f : nat) (this : XGBoost) : nat :=
  fold_right (fun tree n => splits_on f (root tree) + n) 0 (trees this).

(** [importance[f]++] on the entry it reads. *)
Definition increment (v : value) : value := Some (ToNumber v + 1)%float.

(** One more than the largest feature index of any Internal node of any
    tree; 0 when there is none. *)
Definition max_numFeatures (this : XGBoost) : nat :=
  fold_right (fun tree n => Nat.max (_getNumFeatures (root tree)) n) 0 (trees this).

(** *** The split search, in the words of the specification

    Section 4.1: for every feature, sort the sample indices by that feature's
    value; scan adjacent pairs in sorted order, accumulating [leftSum] and
    [leftCount] and deriving [rightSum] and [rightCount] by subtraction from
    the totals; skip a boundary when the two adjacent values are equal;
    [gain = leftSum^2/(leftCount+eps) + rightSum^2/(rightCount+eps)
            - sumGrad^2/(count+eps)].
    Nothing here is defined from the functions of [_buildTree]. *)

Module SplitSpec.

Local Open Scope float_scope.

(** The value of feature [f] of sample [a]. *)
Definition value_at (X : list (list float)) (a f : nat) : float :=
  nth f (nth a X []) nan.

(** Sample [a] comes before sample [b] in the order of feature [f]: its
    value is the smaller one, or the values are equal and [a] is the earlier
    sample (the sort is stable). *)
Definition before (X : list (list float)) (f a b : nat) : Prop :=
  (value_at X a f <? value_at X b f) = true \/
  ((value_at X a f =? value_at X b f) = true /\ (a < b)%nat).

(** [order] is the sample indices sorted by the value of feature [f]. *)
Definition ascending (X : list (list float)) (f : nat) (order : list nat) : Prop :=
  Permutation order (seq 0 (length X)) /\ StronglySorted (before X f) order.

Definition sumGrad (gradients : list float) : float :=
  fold_left PrimFloat.add gradients 0.

(** The number of samples, as a number. *)
Definition count (gradients : list float) : float :=
  PrimFloat.of_uint63 (Uint63.of_Z (Z.of_nat (length gradients))).

(** The sums over the samples [left] on the left of a boundary. *)
Definition leftSum (gradients : list float) (left : list nat) : float :=
  fold_left (fun s a => s + nth a gradients 0) left 0.

Definition leftCount (left : list nat) : float :=
  fold_left (fun c _ => c + 1) left 0.

Definition rightSum (gradients : list float) (left : list nat) : float :=
  fold_left (fun s a => s - nth a gradients 0) left (sumGrad gradients).

Definition rightCount (gradients : list float) (left : list nat) : float :=
  fold_left (fun c _ => c - 1) left (count gradients).

Definition gain (gradients : list float) (left : list nat) : float :=
  leftSum gradients left * leftSum gradients left / (leftCount left + 1e-10) +
  rightSum gradients left * rightSum gradients left / (rightCount gradients left + 1e-10) -
  sumGrad gradients * sumGrad gradients / (count gradients + 1e-10).

End SplitSpec.

(** [a] comes before [b] in the order of the keys [key], ties by index. *)
Definition key_before (key : nat -> float) (a b : nat) : Prop :=
  (key a <? key b)%float = true \/ ((key a =? key b)%float = true /\ a < b).

(** *** Prediction, in the words of the specification

    Sections 3 and 4.2: [traverse] returns the value of a Leaf and, at an
    Internal node, compares [x[featureIndex] <= threshold], true routing
    left and false routing right; the raw score is the base score 0.5 plus
    the sum of [learningRate * traverse(x, tree)] over the trees in
    insertion order; the output is [1 / (1 + e^(-rawScore))]. *)

Module PredictSpec.

Local Open Scope float_scope.

(** A feature the vector does not have reads as NaN, which compares false. *)
Inductive traverse (x : list float) : Node -> float -> Prop :=
| traverse_leaf v : traverse x (Leaf v) v
| traverse_left f t l r v :
    (nth f x nan <=? t) = true -> traverse x l v -> traverse x (Internal f t l r) v
| traverse_right f t l r v :
    (nth f x nan <=? t) = false -> traverse x r v -> traverse x (Internal f t l r) v.

Definition rawScore (learningRate : float) (contributions : list float) : float :=
  fold_left (fun score c => score + learningRate * c) contributions 0.5.

Definition sigmoid (Math_exp : float -> float) (score : float) : float :=
  1 / (1 + Math_exp (- score)).

End PredictSpec.

(** [x] is a finite spec float of sign [s], or the infinity of sign [s]. *)
Definition signed (s : bool) (x : spec_float) : Prop :=
  (exists m e, x = S754_finite s m e) \/ x = S754_infinity s.

(** ** Example inputs *)

Module Examples.

(** [{ maxDepth: d, numRounds: n }] *)
Definition params (d n : option Z) : Params :=
  {| p_learningRate := None; p_maxDepth := d;
     p_minChildWeight := None; p_numRounds := n |}.

Definition two_rounds : XGBoost := constructor (params None (Some 2%Z)).

(** Three samples of two features, separable on the first feature. *)
Definition X3 : list (list float) := [[0; 0]; [10; 10]; [3; 4]]%float.
Definition y3 : list float := [0; 1; 1]%float.

(** The rows of the invalid-input scenario: the second row is short. *)
Definition X_ragged : list (list float) := [[1; 2]; [3]]%float.

(** Five samples whose first round splits on feature 0 and whose second
    round splits on feature 1. *)
Definition X5 : list (list float) := [[0; 0]; [0; 1]; [1; 0]; [1; 1]; [1; 0]]%float.
Definition y5 : list float := [0; 1; 1; 1; 1]%float.

(** Three samples whose labels are finite and whose gradients overflow:
    the first tree is a Leaf of value [+Infinity], the second a Leaf of value
    [-Infinity], and the raw score of every vector is NaN. *)
Definition X_line : list (list float) := [[0]; [1]; [2]]%float.
Definition y_huge : list float := [1e308; 1e308; 0]%float.

(** A function to run the prediction functions with in the examples: the
    first terms of the series of the exponential. *)
Definition exp_series (z : float) : float := (1 + z + z * z / 2)%float.

End Examples.

(** ** class XGBoostTester

    The test suite that drives the class.  [Math.random] is the stream
    [Math_random]: the [k]-th call of a run returns [Math_random k], and
    every method that draws numbers takes the number of calls made so far
    and returns the new one.  [printResults], which only writes to the
    console, is left out. *)

Module Tester.

(** What a [catch] clause can receive: an exception of the language, or the
    [Error] that [generateDataset] throws. *)
Inductive exn : Set :=
| Native (e : JS.error)
| Error (message : String.string).

Definition Dataset : Set := (list (list float) * list float)%type.

(** What the three generators have in common: the loop appends [n] rows of
    two features and [n] labels that are 1 or 0. *)
Definition well_shaped (n : nat) (data : Dataset) : Prop :=
  length (fst data) = n /\ length (snd data) = n /\
  Forall (fun row => length row = 2) (fst data) /\
  Forall (fun a => a = 1%float \/ a = 0%float) (snd data).

Record Metrics : Set := {
  accuracy : float;
  precision : float;
  recall : float;
  f1 : float
}.

(** An element of [this.testResults]; [error] holds the exception whose
    message the source stores. *)
Record TestResult : Set := {
  name : String.string;
  passed : bool;
  metrics : option Metrics;
  details : option String.string;
  error : option exn
}.

(** The counters [tp], [fp], [tn], [fn] of [calculateMetrics]. *)
Record Confusion : Set := {
  tp : nat;
  fp : nat;
  tn : nat;
  fn : nat
}.

Definition total (c : Confusion) : nat := tp c + fp c + tn c + fn c.

(** [predictions.map(p => p >= 0.5 ? 1 : 0)] *)
Definition binaryPreds (predictions : list float) : list float :=
  map (fun p => if (0.5 <=? p)%float then 1%float else 0%float) predictions.

(** The four [if] statements of the loop body, for [actual[i] = a]. *)
Definition count_step (binaryPreds : list float) (c : Confusion) (a : float) (i : nat)
  : Confusion :=
  let b := nth_error binaryPreds i in
  let c1 := if strict_eq (Some a) (Some 1%float) && strict_eq b (Some 1%float)
            then {| tp := S (tp c); fp := fp c; tn := tn c; fn := fn c |} else c in
  let c2 := if strict_eq (Some a) (Some 0%float) && strict_eq b (Some 1%float)
            then {| tp := tp c1; fp := S (fp c1); tn := tn c1; fn := fn c1 |} else c1 in
  let c3 := if strict_eq (Some a) (Some 0%float) && strict_eq b (Some 0%float)
            then {| tp := tp c2; fp := fp c2; tn := S (tn c2); fn := fn c2 |} else c2 in
  if strict_eq (Some a) (Some 1%float) && strict_eq b (Some 0%float)
  then {| tp := tp c3; fp := fp c3; tn := tn c3; fn := S (fn c3) |} else c3.

(** A sample is counted when its label is [1] or [0] and it has a binary
    prediction; it is then counted in one counter. *)
Definition counted (binaryPreds : list float) (a : float) (i : nat) : bool :=
  (strict_eq (Some a) (Some 1%float) || strict_eq (Some a) (Some 0%float)) &&
  (strict_eq (nth_error binaryPreds i) (Some 1%float) ||
   strict_eq (nth_error binaryPreds i) (Some 0%float)).

(** [for (let i = 0; i < actual.length; i++)], from index [i] on. *)
Fixpoint count_loop (binaryPreds : list float) (actual : list float) (i : nat)
    (c : Confusion) : Confusion :=
  match actual with
  | [] => c
  | a :: rest => count_loop binaryPreds rest (S i) (count_step binaryPreds c a i)
  end.

Definition confusion (predictions actual : list float) : Confusion :=
  count_loop (binaryPreds predictions) actual 0 {| tp := 0; fp := 0; tn := 0; fn := 0 |}.

(** The counters are integers; their sums are converted where they are
    divided. *)
Definition calculateMetrics (predictions actual : list float) : Metrics :=
  let c := confusion predictions actual in
  let accuracy := (of_nat (tp c + tn c) / of_nat (tp c + tn c + fp c + fn c))%float in
  let precision := or_default (Some (of_nat (tp c) / of_nat (tp c + fp c))%float) 0 in
  let recall := or_default (Some (of_nat (tp c) / of_nat (tp c + fn c))%float) 0 in
  let f1 := or_default (Some (2 * (precision * recall) / (precision + recall))%float) 0 in
  {| accuracy := accuracy; precision := precision; recall := recall; f1 := f1 |}.

Section Run.

Variable Math_random : nat -> float.
Variable Math_exp : float -> float.

(** [importance.join(', ')], the numbers written as the language writes them. *)
Variable join : list value -> String.string.

(** The loop of [generateBinaryData], [n] more iterations after [k] calls. *)
Fixpoint generateBinaryData_loop (n k : nat) (X : list (list float)) (y : list float)
  : Dataset * nat :=
  match n with
  | O => ((X, y), k)
  | S n' =>
      let x1 := (Math_random k * 10)%float in
      let x2 := (Math_random (S k) * 10)%float in
      generateBinaryData_loop n' (S (S k)) (X ++ [[x1; x2]])
        (y ++ [if (10 <? x1 + x2)%float then 1%float else 0%float])
  end.

Definition generateBinaryData (n k : nat) : Dataset * nat :=
  generateBinaryData_loop n k [] [].

Fixpoint generateNonlinearData_loop (n k : nat) (X : list (list float)) (y : list float)
  : Dataset * nat :=
  match n with
  | O => ((X, y), k)
  | S n' =>
      let x1 := (Math_random k * 10 - 5)%float in
      let x2 := (Math_random (S k) * 10 - 5)%float in
      generateNonlinearData_loop n' (S (S k)) (X ++ [[x1; x2]])
        (y ++ [if (x1 * x1 + x2 * x2 <? 16)%float then 1%float else 0%float])
  end.

Definition generateNonlinearData (n k : nat) : Dataset * nat :=
  generateNonlinearData_loop n k [] [].

Fixpoint generateNoisyData_loop (n k : nat) (X : list (list float)) (y : list float)
  : Dataset * nat :=
  match n with
  | O => ((X, y), k)
  | S n' =>
      let x1 := (Math_random k * 10)%float in
      let x2 := (Math_random (S k) * 10)%float in
      let trueLabel := if (10 <? x1 + x2)%float then 1%float else 0%float in
      generateNoisyData_loop n' (S (S (S k))) (X ++ [[x1; x2]])
        (y ++ [if (Math_random (S (S k)) <? 0.1)%float
               then (1 - trueLabel)%float else trueLabel])
  end.

Definition generateNoisyData (n k : nat) : Dataset * nat :=
  generateNoisyData_loop n k [] [].

(** The [switch] of [generateDataset]; the result is the dataset with the
    number of calls of [Math.random] made, or the exception thrown. *)
Definition generateDataset (type : String.string) (n k : nat) : (Dataset * nat) + exn :=
  if String.eqb type "binary"%string then inl (generateBinaryData n k)
  else if String.eqb type "nonlinear"%string then inl (generateNonlinearData n k)
  else if String.eqb type "noisy"%string then inl (generateNoisyData n k)
  else inr (Error "Unknown dataset type"%string).

(** The [catch] clause of the three tests. *)
Definition failed (test : String.string) (e : exn) : TestResult :=
  {| name := test; passed := false; metrics := None; details := None; error := Some e |}.

(** [new XGBoost({ learningRate, maxDepth, minChildWeight, numRounds })],
    [fit], [predictBatch]: the part of a [try] block that can throw an
    exception of the language.  Running out of budget is not caught. *)
Definition train (params : Params) (train_set : Dataset) : result XGBoost :=
  let model := constructor params in
  match fit model (fst train_set) (snd train_set) with
  | (model', Ok _) => Ok model'
  | (_, Throw e) => Throw e
  | (_, Fuel) => Fuel
  end.

Definition testBasicClassification (testResults : list TestResult) (k : nat)
  : result (list TestResult * nat) :=
  match generateDataset "binary"%string 1000 k with
  | inr e => Ok (testResults ++ [failed "Basic Classification"%string e], k)
  | inl (train_set, k1) =>
      match generateDataset "binary"%string 200 k1 with
      | inr e => Ok (testResults ++ [failed "Basic Classification"%string e], k1)
      | inl (test_set, k2) =>
          match
            (model <- train {| p_learningRate := Some 0.3%float; p_maxDepth := Some 4%Z;
                               p_minChildWeight := Some 1%float;
                               p_numRounds := Some 100%Z |} train_set ;;
             predictBatch Math_exp model (fst test_set))
          with
          | Ok predictions =>
              let metrics := calculateMetrics predictions (snd test_set) in
              Ok (testResults ++
                  [{| name := "Basic Classification"%string;
                      passed := (0.7 <? accuracy metrics)%float;
                      metrics := Some metrics; details := None; error := None |}], k2)
          | Throw e => Ok (testResults ++ [failed "Basic Classification"%string (Native e)], k2)
          | Fuel => Fuel
          end
      end
  end.

(** [original_preds.every((pred, i) => Math.abs(pred - deserialized_preds[i]) < 1e-6)] *)
Definition arePredsEqual (original_preds deserialized_preds : list float) : bool :=
  forallb (fun b => b)
          (mapi (fun pred i =>
                   (abs (pred - ToNumber (nth_error deserialized_preds i)) <? 1e-6)%float)
                original_preds).

Definition testModelSerialization (testResults : list TestResult) (k : nat)
  : result (list TestResult * nat) :=
  match generateDataset "binary"%string 100 k with
  | inr e => Ok (testResults ++ [failed "Model Serialization"%string e], k)
  | inl (train_set, k1) =>
      match
        (model <- train {| p_learningRate := None; p_maxDepth := None;
                           p_minChildWeight := None; p_numRounds := Some 10%Z |} train_set ;;
         let serialized := toJSON model in
         let deserializedModel := fromJSON serialized in
         original_preds <- predictBatch Math_exp model (fst train_set) ;;
         deserialized_preds <- predictBatch Math_exp deserializedModel (fst train_set) ;;
         Ok (arePredsEqual original_preds deserialized_preds))
      with
      | Ok equal =>
          Ok (testResults ++
              [{| name := "Model Serialization"%string; passed := equal; metrics := None;
                  details := Some (if equal then "Predictions match after serialization"%string
                                   else "Predictions differ"%string);
                  error := None |}], k1)
      | Throw e => Ok (testResults ++ [failed "Model Serialization"%string (Native e)], k1)
      | Fuel => Fuel
      end
  end.

(** [importance.every(v => typeof v === 'number')]: [every] skips the holes
    of the array, and every entry that was written is a number. *)
Definition every_number (importance : list value) : bool :=
  forallb (fun v => match v with Some _ => true | None => true end) importance.

Definition testFeatureImportance (testResults : list TestResult) (k : nat)
  : result (list TestResult * nat) :=
  match generateDataset "binary"%string 100 k with
  | inr e => Ok (testResults ++ [failed "Feature Importance"%string e], k)
  | inl (train_set, k1) =>
      match
        train {| p_learningRate := Some 0.3%float; p_maxDepth := Some 3%Z;
                 p_minChildWeight := Some 1%float; p_numRounds := Some 10%Z |} train_set
      with
      | Ok model =>
          let importance := getFeatureImportance model in
          let isValid := (length importance =? 2) && every_number importance in
          Ok (testResults ++
              [{| name := "Feature Importance"%string; passed := isValid; metrics := None;
                  details := Some (String.append "Feature importance scores: "%string
                                                 (join importance));
                  error := None |}], k1)
      | Throw e => Ok (testResults ++ [failed "Feature Importance"%string (Native e)], k1)
      | Fuel => Fuel
      end
  end.

End Run.

End Tester.

(** ** Vocabulary of the further properties *)

Fixpoint count_leaves (node : Node) : nat :=
  match node with
  | Leaf _ => 1
  | Internal _ _ l r => count_leaves l + count_leaves r
  end.

Fixpoint count_internal (node : Node) : nat :=
  match node with
  | Leaf _ => 0
  | Internal _ _ l r => 1 + count_internal l + count_internal r
  end.

(** The values of the leaves of a tree, left to right. *)
Fixpoint leaf_values (node : Node) : list float :=
  match node with
  | Leaf v => [v]
  | Internal _ _ l r => leaf_values l ++ leaf_values r
  end.

(** Every Internal node of the tree splits on a feature index below [d]. *)
Fixpoint features_below (d : nat) (node : Node) : Prop :=
  match node with
  | Leaf _ => True
  | Internal featureIndex _ l r =>
      featureIndex < d /\ features_below d l /\ features_below d r
  end.

(** The labels minus what the trees [ts] give, by the accumulation of
    [predictSingle] before the sigmoid, on the rows of [X]. *)
Definition residuals (this : XGBoost) (ts : list Tree) (X : list (list float))
    (y : list float) : list value :=
  mapi (fun actual idx =>
          match nth_error X idx with
          | Some row =>
              match predict_loop this row ts 0.5%float with
              | Ok pred => Some (actual - pred)%float
              | _ => None
              end
          | None => None
          end) y.

(** The internal predictions of [fit] agree with what the trees [ts] give
    on the rows of [X]. *)
Definition predictions_track (this : XGBoost) (ts : list Tree) (X : list (list float))
    (y : list float) (predictions : list value) : Prop :=
  length predictions = length y /\
  forall idx pred, nth_error predictions idx = Some pred ->
    exists row p, nth_error X idx = Some row /\
                  predict_loop this row ts 0.5%float = Ok p /\ pred = Some p.

(** The value of the Leaf built from the samples [part] of a call:
    [sumGrad / (count + 1e-10)] over their gradients. *)
Definition leaf_value_of (gradients : list value) (part : list nat) : float :=
  (sum_of (grads gradients part) / (of_nat (length part) + eps))%float.

(** * The order of binary64 numbers

    [<], [<=] and [===] on numbers are the IEEE 754 comparisons; the facts
    below are read off their specification on [spec_float]. *)

Module FloatOrder.

Local Open Scope float_scope.

Ltac compare_cases :=
  repeat match goal with
         | |- context [Pos.compare_cont Eq ?a ?b] =>
             change (Pos.compare_cont Eq a b) with (Pos.compare a b)
         end;
  repeat match goal with
         | |- context [Z.compare ?a ?b] => destruct (Z.compare_spec a b)
         | |- context [Pos.compare ?a ?b] => destruct (Pos.compare_spec a b)
         end.

Lemma SFcompare_swap x y :
  SFcompare y x = option_map CompOpp (SFcompare x y).
Proof.
  destruct x as [sx|sx| |sx mx ex], y as [sy|sy| |sy my ey]; simpl; try reflexivity;
    try (destruct sx; reflexivity); try (destruct sy; reflexivity);
    try (destruct sx, sy; reflexivity).
  destruct sx, sy; simpl; try reflexivity; compare_cases; simpl;
    try reflexivity; subst; lia.
Qed.

Lemma SFcompare_trans x y z c1 c2 :
  SFcompare x y = Some c1 -> SFcompare y z = Some c2 ->
  le_cmp c1 = true -> le_cmp c2 = true ->
  exists c3, SFcompare x z = Some c3 /\ le_cmp c3 = true /\
             (c1 = Lt \/ c2 = Lt -> c3 = Lt).
Proof.
  destruct x as [sx|sx| |sx mx ex], y as [sy|sy| |sy my ey], z as [sz|sz| |sz mz ez];
    simpl; try discriminate;
    try (destruct sx); try (destruct sy); try (destruct sz); simpl;
    intros [= <-] [= <-]; simpl; try discriminate; intros H1 H2;
    try (eexists; split; [reflexivity|split; [reflexivity|intros [?|?]; congruence]]).
  all: revert H1 H2; compare_cases; simpl; try discriminate; intros _ _; subst; try lia.
  all: try (eexists; split; [reflexivity|split; [reflexivity|intros [?|?]; congruence]]).
Qed.

Lemma SFcompare_refl x c : SFcompare x x = Some c -> c = Eq.
Proof.
  destruct x as [s|s| |s m e]; simpl; try discriminate;
    try (destruct s; intros [= <-]; reflexivity).
  destruct s; rewrite Z.compare_refl;
    change (Pos.compare_cont Eq m m) with (Pos.compare m m);
    rewrite Pos.compare_refl; intros [= <-]; reflexivity.
Qed.

Lemma SFcompare_self x y c :
  SFcompare x y = Some c -> SFcompare x x = Some Eq /\ SFcompare y y = Some Eq.
Proof.
  destruct x as [sx|sx| |sx mx ex], y as [sy|sy| |sy my ey]; simpl;
    try discriminate; intros _;
    repeat match goal with s : bool |- _ => destruct s end; simpl;
    rewrite ?Z.compare_refl;
    repeat match goal with
           | |- context [Pos.compare_cont Eq ?a ?a] =>
               change (Pos.compare_cont Eq a a) with (Pos.compare a a);
               rewrite (Pos.compare_refl a)
           end; split; reflexivity.
Qed.

Lemma is_num_compare a : is_num a <-> SFcompare (Prim2SF a) (Prim2SF a) = Some Eq.
Proof.
  unfold is_num. rewrite FloatAxioms.eqb_spec. unfold SFeqb.
  destruct (SFcompare (Prim2SF a) (Prim2SF a)) as [c|] eqn:E.
  - apply SFcompare_refl in E. subst. tauto.
  - split; discriminate.
Qed.

Lemma compare_total a b :
  is_num a -> is_num b -> exists c, SFcompare (Prim2SF a) (Prim2SF b) = Some c.
Proof.
  intros Ha Hb. apply is_num_compare in Ha, Hb. revert Ha Hb.
  destruct (Prim2SF a) as [sx|sx| |sx mx ex], (Prim2SF b) as [sy|sy| |sy my ey];
    simpl; try discriminate; eauto.
Qed.

Lemma leb_num a b : (a <=? b) = true -> is_num a /\ is_num b.
Proof.
  rewrite FloatAxioms.leb_spec. unfold SFleb.
  destruct (SFcompare (Prim2SF a) (Prim2SF b)) as [c|] eqn:E; [|discriminate].
  intros _. destruct (SFcompare_self _ _ _ E) as [Ha Hb].
  split; apply is_num_compare; assumption.
Qed.

Lemma ltb_num a b : (a <? b) = true -> is_num a /\ is_num b.
Proof.
  rewrite FloatAxioms.ltb_spec. unfold SFltb.
  destruct (SFcompare (Prim2SF a) (Prim2SF b)) as [c|] eqn:E; [|discriminate].
  intros _. destruct (SFcompare_self _ _ _ E) as [Ha Hb].
  split; apply is_num_compare; assumption.
Qed.

Lemma ltb_leb a b : (a <? b) = true -> (a <=? b) = true.
Proof.
  rewrite FloatAxioms.ltb_spec, FloatAxioms.leb_spec. unfold SFltb, SFleb.
  destruct (SFcompare _ _) as [[]|]; congruence.
Qed.

Lemma leb_trans a b c : (a <=? b) = true -> (b <=? c) = true -> (a <=? c) = true.
Proof.
  rewrite !FloatAxioms.leb_spec. unfold SFleb.
  destruct (SFcompare (Prim2SF a) (Prim2SF b)) as [c1|] eqn:E1; [|discriminate].
  destruct (SFcompare (Prim2SF b) (Prim2SF c)) as [c2|] eqn:E2; [|destruct c1; discriminate].
  intros H1 H2.
  destruct (SFcompare_trans _ _ _ _ _ E1 E2) as (c3 & -> & H3 & _);
    destruct c1, c2; try discriminate; try reflexivity; destruct c3; try discriminate; reflexivity.
Qed.

Lemma leb_ltb_trans a b c : (a <=? b) = true -> (b <? c) = true -> (a <? c) = true.
Proof.
  rewrite FloatAxioms.leb_spec, !FloatAxioms.ltb_spec. unfold SFleb, SFltb.
  destruct (SFcompare (Prim2SF a) (Prim2SF b)) as [c1|] eqn:E1; [|discriminate].
  destruct (SFcompare (Prim2SF b) (Prim2SF c)) as [c2|] eqn:E2; [|discriminate].
  intros H1 H2.
  destruct (SFcompare_trans _ _ _ _ _ E1 E2) as (c3 & -> & H3 & H4);
    destruct c1, c2; try discriminate; try reflexivity; rewrite H4; auto.
Qed.

Lemma not_ltb_leb a b : (a <? b) = false -> is_num a -> is_num b -> (b <=? a) = true.
Proof.
  intros H Ha Hb. destruct (compare_total a b Ha Hb) as [c Hc].
  revert H. rewrite FloatAxioms.ltb_spec, FloatAxioms.leb_spec. unfold SFltb, SFleb.
  rewrite (SFcompare_swap (Prim2SF a) (Prim2SF b)), Hc. destruct c; simpl; congruence.
Qed.

Lemma ltb_not_leb a b : (a <? b) = true -> (b <=? a) = false.
Proof.
  rewrite FloatAxioms.ltb_spec, FloatAxioms.leb_spec. unfold SFltb, SFleb.
  rewrite (SFcompare_swap (Prim2SF a) (Prim2SF b)). destruct (SFcompare _ _) as [[]|]; simpl; congruence.
Qed.

Lemma leb_not_ltb a b : (a <=? b) = true -> (b <? a) = false.
Proof.
  rewrite FloatAxioms.ltb_spec, FloatAxioms.leb_spec. unfold SFltb, SFleb.
  rewrite (SFcompare_swap (Prim2SF a) (Prim2SF b)). destruct (SFcompare _ _) as [[]|]; simpl; congruence.
Qed.

(** A comparison with NaN is false. *)
Lemma nan_leb t : (nan <=? t) = false.
Proof. rewrite FloatAxioms.leb_spec. reflexivity. Qed.

(** For a finite [a], [a - a] is [+0]. *)
Lemma sub_self_small a : is_finite a = true -> (abs (a - a) <? 1e-6) = true.
Proof.
  unfold is_finite, is_nan, is_infinity. rewrite negb_true_iff, orb_false_iff, negb_false_iff.
  rewrite !FloatAxioms.eqb_spec, FloatAxioms.ltb_spec, !FloatAxioms.abs_spec, FloatAxioms.sub_spec. intros [Hn Hi].
  destruct (Prim2SF a) as [s|s| |s m e]; simpl in *; try discriminate.
  - destruct s; reflexivity.
  - unfold SF64sub, SFsub. rewrite Z.sub_diag. reflexivity.
Qed.

Lemma cmp_eq_eq x y z :
  SFcompare x y = Some Eq -> SFcompare y z = Some Eq -> SFcompare x z = Some Eq.
Proof.
  intros H1 H2.
  destruct (SFcompare_trans _ _ _ _ _ H1 H2 eq_refl eq_refl) as (c3 & H3 & Hle & _).
  assert (H1' : SFcompare y x = Some Eq) by (rewrite SFcompare_swap, H1; reflexivity).
  assert (H2' : SFcompare z y = Some Eq) by (rewrite SFcompare_swap, H2; reflexivity).
  destruct (SFcompare_trans _ _ _ _ _ H2' H1' eq_refl eq_refl) as (c4 & H4 & Hle4 & _).
  rewrite SFcompare_swap, H3 in H4.
  destruct c3; simpl in *; try discriminate; try assumption.
  injection H4 as H4. subst c4. discriminate.
Qed.

Lemma ltb_trans a b c : (a <? b) = true -> (b <? c) = true -> (a <? c) = true.
Proof. intros H1 H2. eapply leb_ltb_trans; [apply ltb_leb; eassumption|assumption]. Qed.

Lemma ltb_eqb_trans a b c : (a <? b) = true -> (b =? c) = true -> (a <? c) = true.
Proof.
  rewrite !FloatAxioms.ltb_spec, FloatAxioms.eqb_spec. unfold SFltb, SFeqb.
  destruct (SFcompare (Prim2SF a) (Prim2SF b)) as [[]|] eqn:E1; try discriminate.
  destruct (SFcompare (Prim2SF b) (Prim2SF c)) as [[]|] eqn:E2; try discriminate.
  intros _ _.
  destruct (SFcompare_trans _ _ _ _ _ E1 E2 eq_refl eq_refl) as (c3 & -> & _ & H).
  now rewrite H by auto.
Qed.

Lemma eqb_ltb_trans a b c : (a =? b) = true -> (b <? c) = true -> (a <? c) = true.
Proof.
  rewrite !FloatAxioms.ltb_spec, FloatAxioms.eqb_spec. unfold SFltb, SFeqb.
  destruct (SFcompare (Prim2SF a) (Prim2SF b)) as [[]|] eqn:E1; try discriminate.
  destruct (SFcompare (Prim2SF b) (Prim2SF c)) as [[]|] eqn:E2; try discriminate.
  intros _ _.
  destruct (SFcompare_trans _ _ _ _ _ E1 E2 eq_refl eq_refl) as (c3 & -> & _ & H).
  now rewrite H by auto.
Qed.

Lemma eqb_trans a b c : (a =? b) = true -> (b =? c) = true -> (a =? c) = true.
Proof.
  rewrite !FloatAxioms.eqb_spec. unfold SFeqb.
  destruct (SFcompare (Prim2SF a) (Prim2SF b)) as [[]|] eqn:E1; try discriminate.
  destruct (SFcompare (Prim2SF b) (Prim2SF c)) as [[]|] eqn:E2; try discriminate.
  intros _ _. now rewrite (cmp_eq_eq _ _ _ E1 E2).
Qed.

(** Off NaN, [a] is below [b], equal to it, or above it. *)
Lemma not_ltb_cases a b :
  is_num a -> is_num b -> (b <? a) = false -> (a <? b) = true \/ (a =? b) = true.
Proof.
  intros Ha Hb. destruct (compare_total a b Ha Hb) as [c Hc].
  rewrite !FloatAxioms.ltb_spec, FloatAxioms.eqb_spec. unfold SFltb, SFeqb.
  rewrite (SFcompare_swap (Prim2SF a) (Prim2SF b)), Hc. destruct c; simpl; auto; discriminate.
Qed.

Lemma ltb_asym a b : (a <? b) = true -> (b <? a) = false /\ (b =? a) = false.
Proof.
  rewrite !FloatAxioms.ltb_spec, FloatAxioms.eqb_spec. unfold SFltb, SFeqb.
  rewrite (SFcompare_swap (Prim2SF a) (Prim2SF b)).
  destruct (SFcompare _ _) as [[]|]; simpl; try discriminate. auto.
Qed.

End FloatOrder.

(** * The sign of a difference

    The comparator of the split search is [X[a][f] - X[b][f]].  Read off the
    specification of the subtraction on [spec_float]: the difference of two
    numbers is positive exactly when the first is the greater, so the
    comparator is consistent wherever no value is NaN. *)

Module Subtraction.

Local Open Scope Z_scope.

Lemma digits2_pos_bounds m :
  2 ^ (Zpos (digits2_pos m) - 1) <= Zpos m < 2 ^ Zpos (digits2_pos m).
Proof.
  induction m as [m IH|m IH|]; cbn [digits2_pos].
  - rewrite Pos2Z.inj_succ.
    replace (Z.succ (Zpos (digits2_pos m)) - 1) with (Z.succ (Zpos (digits2_pos m) - 1)) by lia.
    rewrite !Z.pow_succ_r by lia. lia.
  - rewrite Pos2Z.inj_succ.
    replace (Z.succ (Zpos (digits2_pos m)) - 1) with (Z.succ (Zpos (digits2_pos m) - 1)) by lia.
    rewrite !Z.pow_succ_r by lia. lia.
  - simpl. lia.
Qed.

Lemma iter_xO m d : Zpos (Pos.iter xO m d) = Zpos m * 2 ^ Zpos d.
Proof.
  induction d as [|d IH] using Pos.peano_ind.
  - simpl. lia.
  - rewrite Pos.iter_succ, Pos2Z.inj_succ, Z.pow_succ_r by lia.
    rewrite Pos2Z.inj_xO, IH. lia.
Qed.

Lemma shl_align_value m e e' :
  e' <= e -> Zpos (fst (shl_align m e e')) = Zpos m * 2 ^ (e - e').
Proof.
  intros H. unfold shl_align. destruct (e' - e) as [|p|p] eqn:E; cbn [fst].
  - replace (e - e') with 0 by lia. simpl. lia.
  - lia.
  - rewrite iter_xO. f_equal. f_equal. lia.
Qed.

Lemma shr_1_digits s :
  0 <= shr_m s ->
  0 <= shr_m (shr_1 s) /\ Zdigits2 (shr_m (shr_1 s)) = Z.max 0 (Zdigits2 (shr_m s) - 1).
Proof.
  destruct s as [m r t]. cbn [shr_m]. intros Hm.
  destruct m as [|[p|p|]|p]; cbn [shr_1 shr_m Zdigits2 digits2_pos]; try lia.
Qed.

Lemma iter_shr_1_digits p :
  forall s, 0 <= shr_m s ->
    0 <= shr_m (SpecFloat.iter_pos shr_1 p s) /\
    Zdigits2 (shr_m (SpecFloat.iter_pos shr_1 p s)) = Z.max 0 (Zdigits2 (shr_m s) - Zpos p).
Proof.
  assert (Hd : forall z, 0 <= Zdigits2 z) by (intros [|q|q]; simpl; lia).
  induction p as [p IH|p IH|]; intros s Hs; cbn [SpecFloat.iter_pos].
  - destruct (shr_1_digits s Hs) as [H1 D1].
    destruct (IH _ H1) as [H2 D2]. destruct (IH _ H2) as [H3 D3].
    split; [exact H3|]. rewrite D3, D2, D1. pose proof (Hd (shr_m s)). lia.
  - destruct (IH _ Hs) as [H2 D2]. destruct (IH _ H2) as [H3 D3].
    split; [exact H3|]. rewrite D3, D2. pose proof (Hd (shr_m s)). lia.
  - apply shr_1_digits, Hs.
Qed.

Lemma shr_record_of_loc_m m l : shr_m (shr_record_of_loc m l) = m.
Proof. destruct l as [|[]]; reflexivity. Qed.

(** Shifting a positive mantissa to its canonical exponent leaves it
    positive, when the exponent is not below [emin]. *)
Lemma shr_fexp_positive m e l :
  0 < m -> emin <= e ->
  0 < shr_m (fst (shr_fexp prec emax m e l)) /\ emin <= snd (shr_fexp prec emax m e l).
Proof.
  intros Hm He. unfold shr_fexp, shr.
  assert (Hd : 0 < Zdigits2 m) by (destruct m; simpl; lia).
  destruct (fexp prec emax (Zdigits2 m + e) - e) as [|p|p] eqn:E; cbn [fst snd];
    rewrite ?shr_record_of_loc_m; try (split; lia).
  destruct (iter_shr_1_digits p (shr_record_of_loc m l)) as [H0 D];
    [rewrite shr_record_of_loc_m; lia|].
  rewrite shr_record_of_loc_m in D.
  unfold fexp, SpecFloat.emin, prec, emax in *.
  split; [|lia].
  destruct (shr_m (SpecFloat.iter_pos shr_1 p (shr_record_of_loc m l))) as [|q|q];
    simpl in D; lia.
Qed.

Lemma round_nearest_even_positive m l : 0 < m -> 0 < round_nearest_even m l.
Proof.
  intros Hm. destruct l as [|[]]; simpl; try lia. destruct (Z.even m); lia.
Qed.

(** Rounding a nonzero number keeps its sign: no underflow to zero. *)
Lemma binary_round_aux_signed s m e l :
  0 < m -> emin <= e -> signed s (binary_round_aux prec emax s m e l).
Proof.
  intros Hm He. unfold binary_round_aux.
  destruct (shr_fexp_positive m e l Hm He) as [H1 E1].
  destruct (shr_fexp prec emax m e l) as [mrs' e']. cbn [fst snd] in H1, E1.
  pose proof (round_nearest_even_positive _ (loc_of_shr_record mrs') H1) as H2.
  destruct (shr_fexp_positive _ e' loc_Exact H2 E1) as [H3 E3].
  destruct (shr_fexp prec emax _ e' loc_Exact) as [mrs'' e'']. cbn [fst snd] in H3, E3.
  destruct (shr_m mrs'') as [|q|q]; try lia.
  destruct (e'' <=? emax - prec); [left; eauto|now right].
Qed.

Lemma binary_round_signed s m e :
  emin <= e -> signed s (binary_round prec emax s m e).
Proof.
  intros He. unfold binary_round, shl_align.
  destruct (fexp prec emax (Zpos (digits2_pos m) + e) - e) as [|p|p] eqn:E;
    apply binary_round_aux_signed; try lia.
  unfold fexp, SpecFloat.emin in *. lia.
Qed.

Lemma ltb_zero_signed s x : signed s x -> SFltb (S754_zero false) x = negb s.
Proof. intros [(m & e & ->)| ->]; destruct s; reflexivity. Qed.

Lemma ltb_zero_normalize d e :
  emin <= e ->
  SFltb (S754_zero false) (binary_normalize prec emax d e false) = (0 <? d).
Proof.
  intros He. destruct d as [|p|p]; cbn [binary_normalize]; [reflexivity| |].
  - now rewrite (ltb_zero_signed false) by (apply binary_round_signed, He).
  - now rewrite (ltb_zero_signed true) by (apply binary_round_signed, He).
Qed.

Lemma canonical_bounds m e :
  canonical_mantissa prec emax m e = true ->
  emin <= e /\ Zpos m < 2 ^ 53 /\ (emin < e -> 2 ^ 52 <= Zpos m).
Proof.
  unfold canonical_mantissa, fexp, SpecFloat.emin, prec, emax. intros H.
  apply Z.eqb_eq in H. pose proof (digits2_pos_bounds m) as [Hlo Hhi].
  split; [lia|]. split.
  - eapply Z.lt_le_trans; [exact Hhi|]. apply Z.pow_le_mono_r; lia.
  - intros He. replace 52 with (Zpos (digits2_pos m) - 1) by lia. exact Hlo.
Qed.

(** A canonical mantissa at a larger exponent is the larger number. *)
Lemma aligned_lt mx ex my ey :
  canonical_mantissa prec emax mx ex = true ->
  canonical_mantissa prec emax my ey = true ->
  ey < ex ->
  Zpos my * 2 ^ (ey - Z.min ex ey) < Zpos mx * 2 ^ (ex - Z.min ex ey).
Proof.
  intros Hx Hy Hlt.
  destruct (canonical_bounds _ _ Hx) as (Ex & Hx1 & Hx2).
  destruct (canonical_bounds _ _ Hy) as (Ey & Hy1 & _).
  specialize (Hx2 ltac:(lia)).
  rewrite Z.min_r by lia. rewrite Z.sub_diag. simpl (2 ^ 0).
  assert (2 ^ 1 <= 2 ^ (ex - ey)) by (apply Z.pow_le_mono_r; lia).
  change (2 ^ 1) with 2 in *. change (2 ^ 53) with (2 * 2 ^ 52) in *. nia.
Qed.

Lemma sub_sign x y :
  SpecFloat.valid_binary prec emax x = true -> SpecFloat.valid_binary prec emax y = true ->
  x <> S754_nan -> y <> S754_nan ->
  SFltb (S754_zero false) (SFsub prec emax x y) = SFltb y x.
Proof.
  intros Vx Vy Nx Ny.
  destruct x as [sx|sx| |sx mx ex]; try congruence;
    destruct y as [sy|sy| |sy my ey]; try congruence;
    try (destruct sx, sy; reflexivity).
  cbn [SpecFloat.valid_binary] in Vx, Vy. unfold bounded in Vx, Vy.
  apply andb_true_iff in Vx, Vy. destruct Vx as [Cx _], Vy as [Cy _].
  destruct (canonical_bounds _ _ Cx) as (Ex & _).
  destruct (canonical_bounds _ _ Cy) as (Ey & _).
  cbn [SFsub]. cbv zeta. rewrite ltb_zero_normalize by lia.
  rewrite !shl_align_value by lia.
  unfold SFltb. cbn [SFcompare].
  pose proof (aligned_lt mx ex my ey Cx Cy) as Hxy.
  pose proof (aligned_lt my ey mx ex Cy Cx) as Hyx.
  rewrite (Z.min_comm ey ex) in Hyx.
  assert (Px : 0 < Zpos mx * 2 ^ (ex - Z.min ex ey))
    by (apply Z.mul_pos_pos; [lia|apply Z.pow_pos_nonneg; lia]).
  assert (Py : 0 < Zpos my * 2 ^ (ey - Z.min ex ey))
    by (apply Z.mul_pos_pos; [lia|apply Z.pow_pos_nonneg; lia]).
  change (Pos.compare_cont Eq my mx) with (Pos.compare my mx).
  destruct sx, sy; cbn [cond_Zopp];
    try (apply Z.ltb_lt; lia); try (apply Z.ltb_ge; lia);
    destruct (Z.compare_spec ey ex) as [E|E|E];
    try (apply Z.ltb_lt; lia); try (apply Z.ltb_ge; lia);
    subst; rewrite Z.min_id, Z.sub_diag in *; simpl (2 ^ 0) in *;
    destruct (Pos.compare_spec my mx); cbn [CompOpp];
    try (apply Z.ltb_lt; lia); try (apply Z.ltb_ge; lia).
Qed.

Local Open Scope float_scope.

(** Off NaN, [a - b > 0] exactly when [b < a]. *)
Lemma sub_positive a b : is_num a -> is_num b -> (0 <? a - b) = (b <? a).
Proof.
  assert (Hnum : forall c, is_num c -> Prim2SF c <> S754_nan).
  { intros c. unfold is_num. rewrite FloatAxioms.eqb_spec. intros H E.
    rewrite E in H. discriminate. }
  intros Ha Hb.
  rewrite !FloatAxioms.ltb_spec, FloatAxioms.sub_spec.
  change (Prim2SF 0) with (S754_zero false).
  apply sub_sign; auto using FloatAxioms.Prim2SF_valid.
Qed.

End Subtraction.

(** * Properties of the split search *)

Section ListFacts.

Lemma fold_left_invariant {A B : Type} (P : A -> Prop) (f : A -> B -> A) (l : list B) :
  (forall a b, In b l -> P a -> P (f a b)) ->
  forall a, P a -> P (fold_left f l a).
Proof.
  induction l as [|b l IH]; simpl; intros Hstep a Ha; [exact Ha|].
  apply IH; [intros; apply Hstep; auto|].
  apply Hstep; auto.
Qed.

Lemma insert_by_perm cmp a l : Permutation (insert_by cmp a l) (a :: l).
Proof.
  induction l as [|b l IH]; simpl; [reflexivity|].
  destruct (0 <? cmp a b)%float; [|reflexivity].
  rewrite IH. apply perm_swap.
Qed.

Lemma sort_perm cmp l : Permutation (JS.sort cmp l) l.
Proof.
  induction l as [|a l IH]; simpl; [constructor|].
  rewrite insert_by_perm. now constructor.
Qed.

Lemma mapi_from_length {A B : Type} (f : A -> nat -> B) l i :
  length (mapi_from f i l) = length l.
Proof. revert i; induction l; simpl; intros; [reflexivity|now rewrite IHl]. Qed.

End ListFacts.

Lemma sortedIndices_perm X f : Permutation (sortedIndices X f) (seq 0 (length X)).
Proof. apply sort_perm. Qed.

Lemma sortedIndices_length X f : length (sortedIndices X f) = length X.
Proof.
  rewrite (Permutation_length (sortedIndices_perm X f)). apply length_seq.
Qed.

(** Every index the search sorts is a row of [X], so [X[a]] in [feature] and
    in [rows] is never [undefined]. *)
Lemma sortedIndices_in_range X f a : In a (sortedIndices X f) -> a < length X.
Proof.
  intros H. apply (Permutation_in _ (sortedIndices_perm X f)) in H.
  apply in_seq in H. lia.
Qed.

Lemma scan_step_valid X gradients sumGrad count f sorted st i :
  Permutation sorted (seq 0 (length X)) ->
  i + 1 < length X ->
  valid_best (length X) (snd st) ->
  valid_best (length X) (snd (scan_step X gradients sumGrad count f sorted st i)).
Proof.
  intros Hperm Hi Hst. destruct st as [sc best]. unfold scan_step.
  destruct (strict_eq _ _); [exact Hst|].
  destruct (fst best <? _)%float; [|exact Hst].
  intros s Hs. simpl in Hs. injection Hs as <-.
  exists sorted, i. simpl. auto.
Qed.

Lemma feature_step_valid X gradients sumGrad count best f :
  valid_best (length X) best ->
  valid_best (length X) (feature_step X gradients sumGrad count best f).
Proof.
  intros Hbest. unfold feature_step.
  apply (fold_left_invariant (fun st => valid_best (length X) (snd st))); [|exact Hbest].
  intros st i Hi Hst. apply in_seq in Hi. rewrite sortedIndices_length in Hi.
  apply scan_step_valid; [apply sortedIndices_perm|lia|exact Hst].
Qed.

Lemma findBestSplit_valid X gradients sumGrad count best :
  findBestSplit X gradients sumGrad count = Ok best ->
  valid_best (length X) best.
Proof.
  unfold findBestSplit. destruct X as [|row0 X']; [discriminate|].
  intros [= <-].
  apply (fold_left_invariant (valid_best (length (row0 :: X')))).
  - intros b f _ Hb. now apply feature_step_valid.
  - intros s Hs. discriminate.
Qed.

Section ValidSplit.

Variables (n : nat) (s : Split).
Hypothesis Hs : valid_split n s.

Lemma valid_split_perm : Permutation (leftIndices s ++ rightIndices s) (seq 0 n).
Proof.
  destruct Hs as (sorted & i & Hp & _ & -> & ->).
  now rewrite firstn_skipn.
Qed.

Lemma valid_split_lengths :
  0 < length (leftIndices s) /\ 0 < length (rightIndices s) /\
  length (leftIndices s) + length (rightIndices s) = n.
Proof.
  destruct Hs as (sorted & i & Hp & Hi & -> & ->).
  apply Permutation_length in Hp. rewrite length_seq in Hp.
  rewrite length_firstn, length_skipn. lia.
Qed.




Lemma valid_split_in_range i :
  In i (leftIndices s ++ rightIndices s) -> i < n.
Proof.
  intros Hin. apply (Permutation_in _ valid_split_perm) in Hin.
  apply in_seq in Hin. lia.
Qed.

End ValidSplit.

Lemma rows_length X indices : length (rows X indices) = length indices.
Proof. apply length_map. Qed.

Lemma grads_length gradients indices : length (grads gradients indices) = length indices.
Proof. apply length_map. Qed.

(** * Properties of [_buildTree] *)

(** The body of [_buildTree], whatever the fuel looks like. *)
Lemma buildTree_fuel_unfold fuel this X gradients depth :
  buildTree_fuel fuel this X gradients depth =
  let sumGrad := sum_of gradients in
  let count := of_nat (length gradients) in
  if stop this depth sumGrad count then Ok (leaf_of sumGrad count)
  else
    best <- findBestSplit X gradients sumGrad count ;;
    match snd best with
    | None => Ok (leaf_of sumGrad count)
    | Some bestSplit =>
        if (fst best <? eps)%float then Ok (leaf_of sumGrad count)
        else
          match fuel with
          | O => Fuel
          | S fuel' =>
              l <- buildTree_fuel fuel' this (rows X (leftIndices bestSplit))
                     (grads gradients (leftIndices bestSplit)) (depth + 1) ;;
              r <- buildTree_fuel fuel' this (rows X (rightIndices bestSplit))
                     (grads gradients (rightIndices bestSplit)) (depth + 1) ;;
              Ok (Internal (s_featureIndex bestSplit) (s_threshold bestSplit) l r)
          end
    end.
Proof. destruct fuel; reflexivity. Qed.

(** Both children of a split have fewer rows than the parent, so a budget
    of [X.length] levels is never used up, and any larger budget gives the
    same tree. *)
Lemma buildTree_fuel_stable n :
  forall this X gradients depth fuel1 fuel2,
    length X <= n -> n <= fuel1 -> n <= fuel2 ->
    buildTree_fuel fuel1 this X gradients depth = buildTree_fuel fuel2 this X gradients depth /\
    buildTree_fuel fuel1 this X gradients depth <> Fuel.
Proof.
  induction n as [|n IH]; intros this X gradients depth fuel1 fuel2 HX H1 H2;
    rewrite (buildTree_fuel_unfold fuel1), (buildTree_fuel_unfold fuel2); cbv zeta;
    destruct (stop _ _ _ _); try (split; [reflexivity|discriminate]);
    destruct (findBestSplit _ _ _ _) as [best| |] eqn:Hfind; simpl;
    try (split; [reflexivity|discriminate]);
    try (unfold findBestSplit in Hfind; destruct X; discriminate);
    (destruct (snd best) as [s|] eqn:Hs; [|split; [reflexivity|discriminate]]);
    (destruct (fst best <? eps)%float; [split; [reflexivity|discriminate]|]);
    pose proof (findBestSplit_valid _ _ _ _ _ Hfind s Hs) as Hv;
    destruct (valid_split_lengths _ _ Hv) as (Hl & Hr & Hsum).
  - lia.
  - destruct fuel1 as [|fuel1]; [lia|]. destruct fuel2 as [|fuel2]; [lia|].
    assert (HL : length (rows X (leftIndices s)) <= n) by (rewrite rows_length; lia).
    assert (HR : length (rows X (rightIndices s)) <= n) by (rewrite rows_length; lia).
    destruct (IH this _ (grads gradients (leftIndices s)) (depth + 1)%Z fuel1 fuel2 HL)
      as [El Nl]; try lia.
    destruct (IH this _ (grads gradients (rightIndices s)) (depth + 1)%Z fuel1 fuel2 HR)
      as [Er Nr]; try lia.
    rewrite <- El, <- Er.
    destruct (buildTree_fuel fuel1 this (rows X (leftIndices s)) _ _); simpl;
      try (split; [reflexivity|discriminate]); [|contradiction].
    destruct (buildTree_fuel fuel1 this (rows X (rightIndices s)) _ _); simpl;
      try (split; [reflexivity|discriminate]). contradiction.
Qed.

Lemma buildTree_fuel_enough this X gradients depth fuel :
  length X <= fuel ->
  buildTree_fuel fuel this X gradients depth = _buildTree this X gradients depth.
Proof.
  intros H. unfold _buildTree.
  apply (buildTree_fuel_stable (length X)); auto.
Qed.

(** [_buildTree] always returns or throws. *)
Lemma buildTree_terminates this X gradients depth :
  _buildTree this X gradients depth <> Fuel.
Proof.
  unfold _buildTree.
  apply (buildTree_fuel_stable (length X) this X gradients depth (length X) (length X)); auto.
Qed.

(** What a call of [_buildTree] does, with the recursive calls folded back
    into [_buildTree]. *)
Lemma buildTree_unfold this X gradients depth :
  _buildTree this X gradients depth =
  let sumGrad := sum_of gradients in
  let count := of_nat (length gradients) in
  if stop this depth sumGrad count then Ok (leaf_of sumGrad count)
  else
    best <- findBestSplit X gradients sumGrad count ;;
    match snd best with
    | None => Ok (leaf_of sumGrad count)
    | Some bestSplit =>
        if (fst best <? eps)%float then Ok (leaf_of sumGrad count)
        else
          l <- _buildTree this (rows X (leftIndices bestSplit))
                 (grads gradients (leftIndices bestSplit)) (depth + 1) ;;
          r <- _buildTree this (rows X (rightIndices bestSplit))
                 (grads gradients (rightIndices bestSplit)) (depth + 1) ;;
          Ok (Internal (s_featureIndex bestSplit) (s_threshold bestSplit) l r)
    end.
Proof.
  unfold _buildTree at 1. rewrite buildTree_fuel_unfold. cbv zeta.
  destruct (stop _ _ _ _); [reflexivity|].
  destruct (findBestSplit _ _ _ _) as [best| |] eqn:Hfind; simpl; try reflexivity.
  destruct (snd best) as [s|] eqn:Hs; [|reflexivity].
  destruct (fst best <? eps)%float; [reflexivity|].
  pose proof (findBestSplit_valid _ _ _ _ _ Hfind s Hs) as Hv.
  destruct (valid_split_lengths _ _ Hv) as (Hl & Hr & Hsum).
  destruct (length X) as [|n] eqn:En; [lia|].
  rewrite !buildTree_fuel_enough by (rewrite rows_length; lia).
  reflexivity.
Qed.

(** The tree depends on the model only through [maxDepth] and
    [minChildWeight]. *)
Lemma buildTree_fuel_ext fuel :
  forall this this' X gradients depth,
    maxDepth this = maxDepth this' ->
    minChildWeight this = minChildWeight this' ->
    buildTree_fuel fuel this X gradients depth = buildTree_fuel fuel this' X gradients depth.
Proof.
  induction fuel as [|fuel IH]; intros this this' X gradients depth Hd Hw;
    simpl; unfold stop; rewrite Hd, Hw; [reflexivity|].
  destruct (_ || _ || _); [reflexivity|].
  destruct (findBestSplit _ _ _ _) as [best| |]; simpl; try reflexivity.
  destruct (snd best); [|reflexivity].
  destruct (fst best <? eps)%float; [reflexivity|].
  rewrite (IH this this' _ _ _ Hd Hw).
  destruct (buildTree_fuel fuel this' _ _ _); simpl; try reflexivity.
  now rewrite (IH this this' _ _ _ Hd Hw).
Qed.

Lemma buildTree_ext this this' X gradients depth :
  maxDepth this = maxDepth this' ->
  minChildWeight this = minChildWeight this' ->
  _buildTree this X gradients depth = _buildTree this' X gradients depth.
Proof. apply buildTree_fuel_ext. Qed.

Lemma buildTree_fuel_depths fuel :
  forall this X gradients depth node,
    (depth <= maxDepth this)%Z ->
    buildTree_fuel fuel this X gradients depth = Ok node ->
    Forall (fun d => (d <= maxDepth this)%Z) (node_depths depth node).
Proof.
  induction fuel as [|fuel IH]; intros this X gradients depth node Hd;
    rewrite buildTree_fuel_unfold; cbv zeta;
    (destruct (stop _ _ _ _) eqn:Hstop;
     [intros [= <-]; repeat constructor; exact Hd|]);
    (destruct (findBestSplit _ _ _ _) as [best| |]; simpl; try discriminate);
    (destruct (snd best) as [s|]; [|intros [= <-]; repeat constructor; exact Hd]);
    (destruct (fst best <? eps)%float; [intros [= <-]; repeat constructor; exact Hd|]);
    [discriminate|].
  unfold stop in Hstop. apply orb_false_iff in Hstop. destruct Hstop as [Hstop _].
  apply orb_false_iff in Hstop. destruct Hstop as [Hstop _].
  rewrite Z.geb_leb in Hstop. apply Z.leb_gt in Hstop.
  destruct (buildTree_fuel fuel this (rows X (leftIndices s)) _ _) as [l| |] eqn:El;
    simpl; try discriminate.
  destruct (buildTree_fuel fuel this (rows X (rightIndices s)) _ _) as [r| |] eqn:Er;
    simpl; try discriminate.
  intros [= <-]. simpl. constructor; [exact Hd|].
  apply Forall_app; split; eapply IH; eauto; lia.
Qed.

(** * Properties of [fit] *)

Lemma with_trees_with_trees this ts ts' :
  with_trees (with_trees this ts) ts' = with_trees this ts'.
Proof. reflexivity. Qed.

Lemma with_trees_self this : with_trees this (trees this) = this.
Proof. destruct this; reflexivity. Qed.

Lemma update_predictions_ext this this' X tree predictions :
  learningRate this = learningRate this' ->
  update_predictions this X tree predictions = update_predictions this' X tree predictions.
Proof. unfold update_predictions. now intros ->. Qed.

(** The loop reads the model's hyperparameters only, never [this.trees]. *)
Lemma fit_rounds_with_trees n :
  forall this ts X y predictions,
    fit_rounds n (with_trees this ts) X y predictions = fit_rounds n this X y predictions.
Proof.
  induction n as [|n IH]; intros this ts X y predictions; simpl; [reflexivity|].
  rewrite (buildTree_ext (with_trees this ts) this) by reflexivity.
  destruct (_buildTree this X _ 0) as [tree| |]; try reflexivity.
  rewrite (update_predictions_ext (push (with_trees this ts) tree) (push this tree))
    by reflexivity.
  destruct (update_predictions _ _ _ _); try reflexivity.
  unfold push. now rewrite !IH.
Qed.

Lemma fit_loop_trees n :
  forall this X y predictions,
    fst (fit_loop n this X y predictions) =
    with_trees this (trees this ++ map tree_of_round (fit_rounds n this X y predictions)).
Proof.
  induction n as [|n IH]; intros this X y predictions; simpl.
  - now rewrite app_nil_r, with_trees_self.
  - destruct (_buildTree this X _ 0) as [tree| |]; simpl;
      try now rewrite app_nil_r, with_trees_self.
    destruct (update_predictions _ _ _ _) as [predictions'| |]; simpl; try reflexivity.
    rewrite IH. unfold push at 1 2. simpl.
    rewrite <- app_assoc. simpl. unfold push. now rewrite fit_rounds_with_trees.
Qed.

Lemma fit_loop_completed n :
  forall this X y predictions,
    snd (fit_loop n this X y predictions) = Ok tt ->
    length (fit_rounds n this X y predictions) = n.
Proof.
  induction n as [|n IH]; intros this X y predictions; simpl; [reflexivity|].
  destruct (_buildTree this X _ 0) as [tree| |]; simpl; try discriminate.
  destruct (update_predictions _ _ _ _) as [predictions'| |]; simpl; try discriminate.
  intros H. now rewrite IH.
Qed.

(** Every recorded tree is what [_buildTree] returns at depth 0 on that
    round's gradients. *)
Lemma fit_rounds_built n :
  forall this X y predictions,
    Forall (fun round => _buildTree this X (fst round) 0 = Ok (snd round))
           (fit_rounds n this X y predictions).
Proof.
  induction n as [|n IH]; intros this X y predictions; simpl; [constructor|].
  destruct (_buildTree this X _ 0) as [tree| |] eqn:Eb; try constructor; [exact Eb|].
  destruct (update_predictions _ _ _ _) as [predictions'| |]; try constructor.
  unfold push. rewrite fit_rounds_with_trees. apply IH.
Qed.

Lemma predict_defined row node : exists v, _predict (Some row) node = Ok v.
Proof.
  induction node as [v|f t l IHl r IHr]; simpl; [now exists v|].
  destruct (_ <=? _)%float; assumption.
Qed.

Lemma mapiM_from_ok {A B : Type} (f : A -> nat -> result B) l :
  forall i,
    (forall x j, i <= j < i + length l -> exists b, f x j = Ok b) ->
    exists bs, mapiM_from f i l = Ok bs /\ length bs = length l.
Proof.
  induction l as [|x l IH]; intros i Hf; simpl; [now exists []|].
  destruct (Hf x i) as [b Hb]; [simpl; lia|]. rewrite Hb. simpl.
  destruct (IH (S i)) as (bs & Hbs & Hlen).
  { intros x' j Hj. apply Hf. simpl. lia. }
  rewrite Hbs. simpl. exists (b :: bs). simpl. auto.
Qed.

Lemma gradients_of_length y predictions : length (gradients_of y predictions) = length y.
Proof. apply mapi_from_length. Qed.

(** With at least as many rows as labels, every row [X[idx]] the update
    reads exists, so the update does not throw. *)
Lemma update_predictions_ok this X tree predictions :
  length predictions <= length X ->
  exists predictions',
    update_predictions this X tree predictions = Ok predictions' /\
    length predictions' = length predictions.
Proof.
  intros Hlen. unfold update_predictions, mapiM.
  apply mapiM_from_ok. intros pred j Hj.
  destruct (nth_error X j) as [row|] eqn:Erow.
  - destruct (predict_defined row tree) as [v ->]. simpl. eauto.
  - apply nth_error_None in Erow. lia.
Qed.

(** A leaf is evaluated without reading the row at all. *)
Lemma update_predictions_leaf this X v predictions :
  exists predictions',
    update_predictions this X (Leaf v) predictions = Ok predictions' /\
    length predictions' = length predictions.
Proof.
  unfold update_predictions, mapiM.
  apply mapiM_from_ok. intros pred j _. simpl. eauto.
Qed.

Lemma stop_no_gradients this depth :
  stop this depth (sum_of []) (of_nat (length (@nil value))) = true.
Proof. unfold stop. simpl sum_of. apply orb_true_r. Qed.

(** The only statement of [_buildTree] that can throw is [X[0].length] on an
    empty [X]; it is not reached when there are no gradients either. *)
Lemma buildTree_ok this n :
  forall X gradients depth,
    length X <= n ->
    X <> [] \/ gradients = [] ->
    exists node, _buildTree this X gradients depth = Ok node.
Proof.
  induction n as [|n IH]; intros X gradients depth Hn HX;
    rewrite buildTree_unfold; cbv zeta;
    (destruct (stop _ _ _ _) eqn:Hstop; [eauto|]);
    (destruct X as [|row0 X'];
     [destruct HX as [HX | ->]; [congruence|];
      rewrite stop_no_gradients in Hstop; discriminate|]);
    [simpl in Hn; lia|].
  destruct (findBestSplit (row0 :: X') _ _ _) as [best| |] eqn:Hfind; try discriminate.
  simpl. destruct (snd best) as [s|] eqn:Hs; [|eauto].
  destruct (fst best <? eps)%float; [eauto|].
  pose proof (findBestSplit_valid _ _ _ _ _ Hfind s Hs) as Hv.
  destruct (valid_split_lengths _ _ Hv) as (Hl & Hr & Hsum).
  destruct (IH (rows (row0 :: X') (leftIndices s)) (grads gradients (leftIndices s))
               (depth + 1)%Z) as [l ->].
  { rewrite rows_length. lia. }
  { left. intros E. apply (f_equal (@length _)) in E. rewrite rows_length in E.
    simpl in E. lia. }
  destruct (IH (rows (row0 :: X') (rightIndices s)) (grads gradients (rightIndices s))
               (depth + 1)%Z) as [r ->].
  { rewrite rows_length. lia. }
  { left. intros E. apply (f_equal (@length _)) in E. rewrite rows_length in E.
    simpl in E. lia. }
  simpl. eauto.
Qed.

Lemma fit_loop_ok n :
  forall this X y predictions,
    length predictions = length y ->
    length y <= length X ->
    snd (fit_loop n this X y predictions) = Ok tt.
Proof.
  induction n as [|n IH]; intros this X y predictions Hp Hy; simpl; [reflexivity|].
  destruct (buildTree_ok this (length X) X (gradients_of y predictions) 0 (le_n _))
    as [tree ->].
  { destruct X as [|row X']; [right|left; discriminate].
    simpl in Hy. destruct y; [reflexivity|simpl in Hy; lia]. }
  destruct (update_predictions_ok (push this tree) X tree predictions) as (p' & -> & Hp');
    [lia|].
  apply IH; lia.
Qed.

Lemma base_predictions_length y : length (base_predictions y) = length y.
Proof. apply repeat_length. Qed.

(** * The claims about training *)

Import Examples.

(** C1, as stated, fails: [fit] has no validation.  With zero samples, with
    the ragged rows of the invalid-input scenario, and with more rows than
    labels, [fit] returns normally and has pushed [numRounds] trees. *)
Lemma fit_no_validation_counterexample :
  (snd (fit two_rounds [] []) = Ok tt /\
   length (trees (fst (fit two_rounds [] []))) = 2) /\
  (snd (fit two_rounds X_ragged [0; 1]%float) = Ok tt /\
   length (trees (fst (fit two_rounds X_ragged [0; 1]%float))) = 2) /\
  (snd (fit two_rounds X3 [0; 1]%float) = Ok tt /\
   length (trees (fst (fit two_rounds X3 [0; 1]%float))) = 2).
Proof. vm_compute. repeat split. Qed.

(** With fewer rows than labels the only error is the [TypeError] of reading
    a missing row, and it can come after a tree was pushed. *)
Lemma fit_short_X_throws_late :
  fit two_rounds [[1]; [2]]%float [0; 1; 1]%float =
  (with_trees two_rounds
     [{| root := Internal 0 1.5 (Leaf (-0.49999999995)) (Leaf 0.49999999995) |}],
   Throw TypeError) /\
  fit two_rounds [] [1%float] = (two_rounds, Throw TypeError).
Proof. vm_compute. split; reflexivity. Qed.

(** C1, amended: [fit] validates nothing.  Whenever [X] has at least as many
    rows as [y] has labels (zero samples and rows of any arity included),
    [fit] returns normally and has appended [numRounds] trees. *)
Theorem fit_completes_without_validation this X y :
  length y <= length X ->
  exists new,
    fit this X y = (with_trees this (trees this ++ new), Ok tt) /\
    length new = Z.to_nat (numRounds this).
Proof.
  intros Hlen. unfold fit.
  set (n := Z.to_nat (numRounds this)).
  set (p := base_predictions y).
  exists (map tree_of_round (fit_rounds n this X y p)).
  pose proof (fit_loop_ok n this X y p (base_predictions_length y) Hlen) as Hok.
  pose proof (fit_loop_trees n this X y p) as Htrees.
  pose proof (fit_loop_completed n this X y p Hok) as Hcount.
  destruct (fit_loop n this X y p) as [this' r]. simpl in *. subst.
  split; [reflexivity|]. now rewrite length_map.
Qed.

Lemma fit_completes_without_validation_witness :
  exists new,
    fit two_rounds X_ragged [1; 1]%float
    = (with_trees two_rounds (trees two_rounds ++ new), Ok tt) /\
    length new = Z.to_nat (numRounds two_rounds).
Proof.
  apply (fit_completes_without_validation two_rounds X_ragged [1; 1]%float).
  simpl. lia.
Defined.



(** C8: with a non-negative [maxDepth], every node of every tree that [fit]
    appends is at a depth between 0 and [maxDepth], the root being at
    depth 0. *)
Theorem depth_bound this X y :
  (0 <= maxDepth this)%Z ->
  exists new,
    trees (fst (fit this X y)) = trees this ++ new /\
    Forall (fun tree =>
              Forall (fun d => (d <= maxDepth this)%Z) (node_depths 0 (root tree)))
           new.
Proof.
  intros Hd. unfold fit.
  set (n := Z.to_nat (numRounds this)). set (p := base_predictions y).
  exists (map tree_of_round (fit_rounds n this X y p)).
  rewrite fit_loop_trees. split; [reflexivity|].
  apply Forall_map. eapply Forall_impl; [|apply fit_rounds_built].
  intros [g tree] Hb. simpl in *.
  now apply (buildTree_fuel_depths (length X) this X g).
Qed.

Lemma depth_bound_witness :
  exists new,
    trees (fst (fit two_rounds X3 y3)) = trees two_rounds ++ new /\
    Forall (fun tree =>
              Forall (fun d => (d <= maxDepth two_rounds)%Z) (node_depths 0 (root tree)))
           new.
Proof. apply (depth_bound two_rounds X3 y3). vm_compute. discriminate. Defined.

(** At depth 0 a non-positive [maxDepth] stops the builder at once. *)
Lemma buildTree_nonpositive_maxDepth this X gradients :
  (maxDepth this <= 0)%Z ->
  _buildTree this X gradients 0 =
  Ok (Leaf (sum_of gradients / (of_nat (length gradients) + eps))%float).
Proof.
  intros Hd. rewrite buildTree_unfold. cbv zeta. unfold stop.
  replace (0 >=? maxDepth this)%Z with true; [reflexivity|].
  symmetry. rewrite Z.geb_leb. now apply Z.leb_le.
Qed.

Lemma fit_loop_leaves_ok n :
  forall this X y predictions,
    (maxDepth this <= 0)%Z ->
    snd (fit_loop n this X y predictions) = Ok tt.
Proof.
  induction n as [|n IH]; intros this X y predictions Hd; simpl; [reflexivity|].
  rewrite buildTree_nonpositive_maxDepth by exact Hd.
  destruct (update_predictions_leaf (push this (Leaf (sum_of (gradients_of y predictions) /
              (of_nat (length (gradients_of y predictions)) + eps))%float)) X
              (sum_of (gradients_of y predictions) /
                 (of_nat (length (gradients_of y predictions)) + eps))%float predictions)
    as (p' & -> & _).
  now apply IH.
Qed.

(** C3 fails on the code: [params.maxDepth || 4] turns a supplied
    [maxDepth = 0] into the default 4, and the tree trained on the
    three-sample data has an Internal root instead of being a single Leaf. *)
Lemma zero_maxDepth_counterexample :
  let model := constructor (params (Some 0%Z) (Some 1%Z)) in
  maxDepth model = 4%Z /\
  trees (fst (fit model X3 y3)) =
  [{| root := Internal 0 1.5 (Leaf (-0.49999999995)) (Leaf 0.499999999975) |}].
Proof. vm_compute. split; reflexivity. Qed.

(** The zero-depth scenario, on the stored field: for every model whose
    [maxDepth] field is zero or negative, [fit] returns normally and every
    tree it appends is a single Leaf whose value is
    [sumGrad / (count + 1e-10)] over the gradients of its round, [count]
    being the number of labels. *)
Theorem nonpositive_maxDepth_leaves this X y :
  (maxDepth this <= 0)%Z ->
  let rounds := fit_rounds (Z.to_nat (numRounds this)) this X y (base_predictions y) in
  fit this X y = (with_trees this (trees this ++ map tree_of_round rounds), Ok tt) /\
  length rounds = Z.to_nat (numRounds this) /\
  Forall (fun round =>
            length (fst round) = length y /\
            snd round = Leaf (sum_of (fst round) / (of_nat (length (fst round)) + eps))%float)
         rounds.
Proof.
  intros Hd rounds. unfold fit. subst rounds.
  set (n := Z.to_nat (numRounds this)). set (p := base_predictions y).
  pose proof (fit_loop_leaves_ok n this X y p Hd) as Hok.
  pose proof (fit_loop_trees n this X y p) as Htrees.
  pose proof (fit_loop_completed n this X y p Hok) as Hcount.
  destruct (fit_loop n this X y p) as [this' r]. simpl in *. subst.
  repeat split; auto.
  assert (Hlen : forall k this0 p0,
             Forall (fun round => length (fst round) = length y)
                    (fit_rounds k this0 X y p0)).
  { induction k as [|k IH]; intros this0 p0; simpl; [constructor|].
    destruct (_buildTree this0 X _ 0); try constructor.
    - simpl. apply gradients_of_length.
    - destruct (update_predictions _ _ _ _); try constructor. apply IH. }
  eapply Forall_impl; [|apply (Forall_and (Hlen n this p) (fit_rounds_built n this X y p))].
  intros [g tree] [Hl Hg]. simpl in *. split; [assumption|].
  rewrite buildTree_nonpositive_maxDepth in Hg by exact Hd. congruence.
Qed.

Lemma nonpositive_maxDepth_leaves_witness :
  let this := constructor (params (Some (-1)%Z) (Some 2%Z)) in
  let rounds := fit_rounds (Z.to_nat (numRounds this)) this X3 y3 (base_predictions y3) in
  fit this X3 y3 = (with_trees this (trees this ++ map tree_of_round rounds), Ok tt) /\
  length rounds = Z.to_nat (numRounds this) /\
  Forall (fun round =>
            length (fst round) = length y3 /\
            snd round = Leaf (sum_of (fst round) / (of_nat (length (fst round)) + eps))%float)
         rounds.
Proof.
  apply (nonpositive_maxDepth_leaves (constructor (params (Some (-1)%Z) (Some 2%Z))) X3 y3).
  vm_compute. discriminate.
Defined.

(** * The leaf test of [_buildTree] *)

Lemma scan_after_S gradients sumGrad count sorted k :
  scan_after gradients sumGrad count sorted (S k) =
  advance gradients sorted (scan_after gradients sumGrad count sorted k) k.
Proof. unfold scan_after. now rewrite seq_S, fold_left_app. Qed.

(** One iteration of the inner loop tracks the gain of its boundary, if the
    boundary is a candidate. *)
Lemma scan_step_summary X gradients sumGrad count f best i :
  let sorted := sortedIndices X f in
  let st := scan_step X gradients sumGrad count f sorted
                      (scan_after gradients sumGrad count sorted i, best) i in
  fst st = scan_after gradients sumGrad count sorted (S i) /\
  summary (snd st) = fold_left track (boundary_gain X gradients sumGrad count f i) (summary best).
Proof.
  cbv zeta. unfold scan_step, boundary_gain. rewrite scan_after_S, Nat.add_1_r.
  destruct (strict_eq _ _); [split; reflexivity|].
  simpl. unfold track. simpl. rewrite scan_after_S.
  destruct (fst best <? _)%float; split; reflexivity.
Qed.

Lemma scan_fold_summary X gradients sumGrad count f n :
  forall k best,
    let sorted := sortedIndices X f in
    let st := fold_left (scan_step X gradients sumGrad count f sorted) (seq k n)
                        (scan_after gradients sumGrad count sorted k, best) in
    fst st = scan_after gradients sumGrad count sorted (k + n) /\
    summary (snd st) =
    fold_left track (flat_map (boundary_gain X gradients sumGrad count f) (seq k n))
              (summary best).
Proof.
  induction n as [|n IH]; intros k best; cbv zeta.
  - simpl. now rewrite Nat.add_0_r.
  - change (seq k (S n)) with (k :: seq (S k) n).
    cbn [fold_left flat_map]. rewrite fold_left_app.
    destruct (scan_step_summary X gradients sumGrad count f best k) as [Hsc Hbest].
    cbv zeta in Hsc, Hbest.
    destruct (scan_step _ _ _ _ _ _ _ k) as [sc' best']. simpl in Hsc, Hbest. subst sc'.
    destruct (IH (S k) best') as [Hsc' Hbest']. cbv zeta in Hsc', Hbest'.
    rewrite Hsc', Hbest', Hbest. split; [f_equal; lia|reflexivity].
Qed.

Lemma feature_step_summary X gradients sumGrad count best f :
  summary (feature_step X gradients sumGrad count best f) =
  fold_left track
            (flat_map (boundary_gain X gradients sumGrad count f) (seq 0 (length X - 1)))
            (summary best).
Proof.
  unfold feature_step. rewrite sortedIndices_length.
  apply (scan_fold_summary X gradients sumGrad count f (length X - 1) 0 best).
Qed.

Lemma findBestSplit_summary X gradients sumGrad count best :
  findBestSplit X gradients sumGrad count = Ok best ->
  summary best = fold_left track (candidate_gains X gradients sumGrad count) (0%float, false).
Proof.
  unfold findBestSplit, candidate_gains. destruct X as [|row0 X']; [discriminate|].
  intros [= <-]. simpl hd.
  change (0%float, false) with (summary (0%float, None)).
  generalize (0%float, @None Split). generalize (seq 0 (length row0)).
  induction l as [|f l IH]; intros best; simpl; [reflexivity|].
  now rewrite IH, fold_left_app, feature_step_summary.
Qed.

(** What the tracked gain knows about the gains seen so far. *)
Lemma track_invariant gains :
  let b := fold_left track gains (0%float, false) in
  is_num (fst b) /\
  (snd b = false -> fst b = 0%float) /\
  (snd b = true -> In (fst b) gains) /\
  (forall gain, In gain gains -> (eps <=? gain)%float = true -> (eps <=? fst b)%float = true).
Proof.
  induction gains as [|g gains IH] using rev_ind; cbv zeta.
  - simpl. repeat split; try discriminate; try reflexivity. intros gain [].
  - rewrite fold_left_app. simpl. cbv zeta in IH.
    destruct (fold_left track gains (0%float, false)) as [bg bs]. simpl in IH.
    destruct IH as (Hnum & Hnone & Hsome & Hmax).
    unfold track. simpl. destruct (bg <? g)%float eqn:Hlt; simpl.
    + destruct (FloatOrder.ltb_num _ _ Hlt) as [_ Hg].
      repeat split; auto; try discriminate.
      * intros _. apply in_or_app. right. now left.
      * intros gain Hin Hge. apply in_app_or in Hin.
        destruct Hin as [Hin | [<- | []]]; [|exact Hge].
        eapply FloatOrder.leb_trans; [apply (Hmax gain Hin Hge)|].
        now apply FloatOrder.ltb_leb.
    + repeat split; auto.
      * intros Hs. apply in_or_app. left. auto.
      * intros gain Hin Hge. apply in_app_or in Hin.
        destruct Hin as [Hin | [<- | []]]; [now apply (Hmax gain)|].
        destruct (FloatOrder.leb_num _ _ Hge) as [_ Hg].
        eapply FloatOrder.leb_trans; [exact Hge|].
        now apply FloatOrder.not_ltb_leb.
Qed.

(** The second leaf test, [!bestSplit || bestGain < 1e-10], holds exactly
    when no candidate gain reaches [1e-10]. *)
Lemma track_leaf_test gains :
  let b := fold_left track gains (0%float, false) in
  (snd b = false \/ (fst b <? eps)%float = true) <->
  Forall (fun gain => (eps <=? gain)%float = false) gains.
Proof.
  cbv zeta. destruct (track_invariant gains) as (Hnum & Hnone & Hsome & Hmax).
  cbv zeta in *. destruct (fold_left track gains (0%float, false)) as [bg bs]. simpl in *.
  split.
  - intros Hleaf. apply Forall_forall. intros gain Hin.
    destruct (eps <=? gain)%float eqn:Hge; [|reflexivity].
    pose proof (Hmax gain Hin Hge) as Hb.
    destruct Hleaf as [Hs | Hlt].
    + rewrite (Hnone Hs) in Hb. vm_compute in Hb. discriminate.
    + apply FloatOrder.ltb_not_leb in Hlt. congruence.
  - intros Hall. destruct bs; [right|now left].
    rewrite Forall_forall in Hall. pose proof (Hall bg (Hsome eq_refl)) as Hb.
    destruct (bg <? eps)%float eqn:Hlt; [reflexivity|].
    rewrite (FloatOrder.not_ltb_leb _ _ Hlt Hnum) in Hb; [discriminate|reflexivity].
Qed.

Lemma stop_iff this depth sumGrad count :
  stop this depth sumGrad count = true <->
  (depth >= maxDepth this)%Z \/
  (count <? minChildWeight this)%float = true \/
  (abs sumGrad <? eps)%float = true.
Proof.
  unfold stop. rewrite !orb_true_iff, Z.geb_leb, Z.leb_le. intuition lia.
Qed.

(** ** The sorted order *)

Section SortedOrder.

Local Open Scope float_scope.

Variable key : nat -> float.

Lemma key_before_asym a b : key_before key a b -> key_before key b a -> False.
Proof.
  intros [H1 | [H1 L1]] [H2 | [H2 L2]].
  - apply FloatOrder.ltb_asym in H1. destruct H1; congruence.
  - apply FloatOrder.ltb_asym in H1. destruct H1; congruence.
  - apply FloatOrder.ltb_asym in H2. destruct H2; congruence.
  - lia.
Qed.

(** Two sorted arrangements of the same indices are the same list. *)
Lemma sorted_unique l1 :
  forall l2, StronglySorted (key_before key) l1 -> StronglySorted (key_before key) l2 ->
             Permutation l1 l2 -> l1 = l2.
Proof.
  induction l1 as [|a l1 IH]; intros l2 H1 H2 Hp.
  - apply Permutation_nil in Hp. now subst.
  - destruct l2 as [|b l2]; [apply Permutation_sym, Permutation_nil in Hp; discriminate|].
    apply StronglySorted_inv in H1, H2. destruct H1 as [H1 Ha], H2 as [H2 Hb].
    destruct (Nat.eq_dec a b) as [<- | Hne].
    + f_equal. apply IH; auto. now apply Permutation_cons_inv in Hp.
    + exfalso. rewrite Forall_forall in Ha, Hb.
      assert (Hb1 : In b l1).
      { assert (In b (a :: l1)) by (apply (Permutation_in b (Permutation_sym Hp)); now left).
        simpl in *. intuition congruence. }
      assert (Ha2 : In a l2).
      { assert (In a (b :: l2)) by (apply (Permutation_in a Hp); now left).
        simpl in *. intuition congruence. }
      exact (key_before_asym a b (Ha b Hb1) (Hb a Ha2)).
Qed.

Variable cmp : nat -> nat -> float.
Variable n : nat.

Hypothesis key_num : forall a, (a < n)%nat -> is_num (key a).
Hypothesis cmp_sign :
  forall a b, (a < n)%nat -> (b < n)%nat -> (0 <? cmp a b) = (key b <? key a).

Lemma insert_by_sorted a l :
  (a < n)%nat -> Forall (fun b => (a < b < n)%nat) l ->
  StronglySorted (key_before key) l -> StronglySorted (key_before key) (insert_by cmp a l).
Proof.
  intros Ha. induction l as [|b l IH]; intros Hl Hs; simpl.
  - constructor; constructor.
  - apply Forall_cons_iff in Hl. destruct Hl as [Hb Hl].
    apply StronglySorted_inv in Hs. destruct Hs as [Hs Hbl].
    rewrite cmp_sign by lia.
    destruct (key b <? key a) eqn:Hlt.
    + constructor; [now apply IH|].
      apply Forall_forall. intros x Hx.
      apply (Permutation_in x (insert_by_perm cmp a l)) in Hx.
      destruct Hx as [<- | Hx]; [now left|].
      rewrite Forall_forall in Hbl. now apply Hbl.
    + assert (Hab : key_before key a b).
      { destruct (FloatOrder.not_ltb_cases (key a) (key b)) as [H | H];
          [apply key_num; lia|apply key_num; lia|exact Hlt|now left|right; split; [exact H|lia]]. }
      constructor; [constructor; assumption|].
      constructor; [exact Hab|].
      rewrite Forall_forall in Hbl, Hl. apply Forall_forall. intros x Hx.
      specialize (Hbl x Hx). specialize (Hl x Hx).
      destruct Hab as [H1 | [H1 _]], Hbl as [H2 | [H2 _]].
      * left. eapply FloatOrder.ltb_trans; eassumption.
      * left. eapply FloatOrder.ltb_eqb_trans; eassumption.
      * left. eapply FloatOrder.eqb_ltb_trans; eassumption.
      * right. split; [eapply FloatOrder.eqb_trans; eassumption|lia].
Qed.

Lemma sort_seq_sorted m :
  forall k, (k + m <= n)%nat -> StronglySorted (key_before key) (JS.sort cmp (seq k m)).
Proof.
  induction m as [|m IH]; intros k Hk; simpl; [constructor|].
  apply insert_by_sorted; [lia| |apply IH; lia].
  apply Forall_forall. intros b Hb.
  apply (Permutation_in b (sort_perm cmp (seq (S k) m))) in Hb.
  apply in_seq in Hb. lia.
Qed.

End SortedOrder.

Lemma ToNumber_nth_error (row : list float) f : ToNumber (nth_error row f) = nth f row nan.
Proof.
  destruct (nth_error row f) as [v|] eqn:E; simpl; symmetry.
  - now apply nth_error_nth.
  - apply nth_overflow. now apply nth_error_None.
Qed.

Lemma value_at_num X d a f :
  Forall (fun row => length row = d) X -> Forall (Forall is_num) X ->
  f < d -> a < length X -> is_num (SplitSpec.value_at X a f).
Proof.
  intros arity numbers Hf Ha. unfold SplitSpec.value_at.
  rewrite Forall_forall in arity, numbers.
  pose proof (nth_In X [] Ha) as Hrow.
  specialize (arity _ Hrow). specialize (numbers _ Hrow).
  rewrite Forall_forall in numbers. apply numbers, nth_In. lia.
Qed.

Lemma feature_present X d a f :
  Forall (fun row => length row = d) X ->
  f < d -> a < length X -> feature X a f = Some (SplitSpec.value_at X a f).
Proof.
  intros arity Hf Ha. unfold feature, SplitSpec.value_at.
  rewrite Forall_forall in arity.
  assert (Hrow : length (nth a X []) = d) by (apply arity, nth_In, Ha).
  destruct (nth_error (nth a X []) f) as [v|] eqn:E.
  - f_equal. symmetry. now apply nth_error_nth.
  - apply nth_error_None in E. lia.
Qed.

(** On feature values that are numbers the sort returns the ascending
    order of the specification: the comparator is consistent there. *)
Lemma sortedIndices_ascending X d f :
  Forall (fun row => length row = d) X -> Forall (Forall is_num) X ->
  f < d -> SplitSpec.ascending X f (sortedIndices X f).
Proof.
  intros arity numbers Hf. split; [apply sortedIndices_perm|].
  unfold sortedIndices.
  apply (sort_seq_sorted (fun a => SplitSpec.value_at X a f) _ (length X)).
  - intros a Ha. now apply (value_at_num X d).
  - intros a b Ha Hb. unfold feature. rewrite !ToNumber_nth_error.
    apply Subtraction.sub_positive; now apply (value_at_num X d).
  - lia.
Qed.

(** There is one ascending order. *)
Lemma ascending_unique X d f order :
  Forall (fun row => length row = d) X -> Forall (Forall is_num) X ->
  f < d -> SplitSpec.ascending X f order -> order = sortedIndices X f.
Proof.
  intros arity numbers Hf [Hp Hs].
  destruct (sortedIndices_ascending X d f arity numbers Hf) as [Hp' Hs'].
  apply (sorted_unique (fun a => SplitSpec.value_at X a f)); auto.
  rewrite Hp. now symmetry.
Qed.

(** ** The running sums *)

Lemma firstn_succ_nth (l : list nat) k :
  k < length l -> firstn (S k) l = firstn k l ++ [nth k l 0].
Proof.
  revert k. induction l as [|a l IH]; intros k Hk; simpl in *; [lia|].
  destruct k as [|k]; [reflexivity|]. simpl. f_equal. apply IH. lia.
Qed.

Lemma sum_of_spec g : sum_of (map Some g) = SplitSpec.sumGrad g.
Proof.
  unfold sum_of, SplitSpec.sumGrad. generalize 0%float.
  induction g as [|a g IH]; intros s; simpl; auto.
Qed.

Lemma get_gradient g a : a < length g -> ToNumber (get (map Some g) a) = nth a g 0%float.
Proof.
  intros Ha. unfold get. rewrite nth_error_map.
  destruct (nth_error g a) as [v|] eqn:E.
  - simpl. symmetry. now apply nth_error_nth.
  - apply nth_error_None in E. lia.
Qed.

(** The running sums of the inner loop are the sums of the specification
    over the samples passed so far. *)
Lemma scan_after_spec g sorted k :
  Forall (fun a => a < length g) sorted -> k <= length sorted ->
  scan_after (map Some g) (SplitSpec.sumGrad g) (SplitSpec.count g) sorted k =
  {| leftSum := SplitSpec.leftSum g (firstn k sorted);
     leftCount := SplitSpec.leftCount (firstn k sorted);
     rightSum := SplitSpec.rightSum g (firstn k sorted);
     rightCount := SplitSpec.rightCount g (firstn k sorted) |}.
Proof.
  intros Hin. induction k as [|k IH]; intros Hk; [reflexivity|].
  rewrite scan_after_S, IH by lia. rewrite firstn_succ_nth by lia.
  unfold advance, SplitSpec.leftSum, SplitSpec.leftCount, SplitSpec.rightSum,
    SplitSpec.rightCount.
  rewrite !fold_left_app. cbn [fold_left leftSum leftCount rightSum rightCount].
  rewrite get_gradient; [reflexivity|].
  rewrite Forall_forall in Hin. apply Hin, nth_In. lia.
Qed.

(** The gain the search computes from its running sums is the gain of the
    specification. *)
Lemma gain_of_spec g left :
  gain_of {| leftSum := SplitSpec.leftSum g left;
             leftCount := SplitSpec.leftCount left;
             rightSum := SplitSpec.rightSum g left;
             rightCount := SplitSpec.rightCount g left |}
          (SplitSpec.sumGrad g) (SplitSpec.count g) = SplitSpec.gain g left.
Proof. reflexivity. Qed.

(** The candidate gains the search sees are those of the specification. *)
Lemma candidate_gains_spec X g d (P : float -> Prop) :
  length X = length g ->
  Forall (fun row => length row = d) X -> Forall (Forall is_num) X ->
  Forall P (candidate_gains X (map Some g) (SplitSpec.sumGrad g) (SplitSpec.count g)) <->
  (forall f order i,
     f < d -> SplitSpec.ascending X f order -> i + 1 < length X ->
     PrimFloat.eqb (SplitSpec.value_at X (nth i order 0) f)
                   (SplitSpec.value_at X (nth (i + 1) order 0) f) = false ->
     P (SplitSpec.gain g (firstn (i + 1) order))).
Proof.
  intros lengths arity numbers.
  assert (Hd : X <> [] -> length (hd [] X) = d).
  { destruct X as [|row X']; [congruence|]. intros _. now inversion arity. }
  assert (Hboundary : forall f i, f < d -> i + 1 < length X ->
            boundary_gain X (map Some g) (SplitSpec.sumGrad g) (SplitSpec.count g) f i =
            if PrimFloat.eqb (SplitSpec.value_at X (nth i (sortedIndices X f) 0) f)
                             (SplitSpec.value_at X (nth (i + 1) (sortedIndices X f) 0) f)
            then [] else [SplitSpec.gain g (firstn (i + 1) (sortedIndices X f))]).
  { intros f i Hf Hi. unfold boundary_gain.
    assert (Hr : forall j, j < length X -> nth j (sortedIndices X f) 0 < length X).
    { intros j Hj. apply (sortedIndices_in_range X f), nth_In.
      now rewrite sortedIndices_length. }
    rewrite !(feature_present X d _ _ arity) by (auto; apply Hr; lia).
    cbn [strict_eq].
    rewrite scan_after_spec, gain_of_spec; [reflexivity| |rewrite sortedIndices_length; lia].
    apply Forall_forall. intros a Ha. apply sortedIndices_in_range in Ha. lia. }
  unfold candidate_gains. rewrite Forall_flat_map, Forall_forall. split.
  - intros H f order i Hf Hasc Hi Hne.
    rewrite (ascending_unique X d f order arity numbers Hf Hasc) in *.
    assert (Hin : In f (seq 0 (length (hd [] X)))).
    { apply in_seq. rewrite Hd; [lia|]. intros ->. simpl in Hi. lia. }
    specialize (H f Hin). rewrite Forall_flat_map, Forall_forall in H.
    specialize (H i ltac:(apply in_seq; lia)).
    rewrite Hboundary, Hne in H by assumption. now inversion H.
  - intros H f Hf. apply in_seq in Hf. rewrite Forall_flat_map, Forall_forall.
    intros i Hi. apply in_seq in Hi.
    assert (HX : X <> []) by (intros ->; simpl in Hi; lia).
    rewrite Hd in Hf by assumption.
    rewrite Hboundary by lia.
    destruct (PrimFloat.eqb _ _) eqn:Hne; constructor; [|constructor].
    apply (H f (sortedIndices X f) i); try lia; [|exact Hne].
    now apply (sortedIndices_ascending X d).
Qed.

(** C9: a call of [build] on as many samples as gradients, the samples
    having [d] features each and no feature value being NaN, returns a node.
    With [sumGrad], [count], the sorted order, the candidate boundaries and
    the gain as the specification words them ([SplitSpec]), the node is a
    Leaf exactly when [depth >= maxDepth], or [count < minChildWeight], or
    [|sumGrad| < 1e-10], or no candidate split (a boundary between two
    different adjacent values of the ascending order of a feature) has a
    gain of at least [1e-10]; and a Leaf carries
    [sumGrad / (count + 1e-10)] of the gradients of the call. *)
Theorem leaf_iff this X gradients depth d :
  length X = length gradients ->
  Forall (fun row => length row = d) X ->
  Forall (Forall is_num) X ->
  exists node,
    _buildTree this X (map Some gradients) depth = Ok node /\
    (is_leaf node = true <->
       (depth >= maxDepth this)%Z \/
       (SplitSpec.count gradients <? minChildWeight this)%float = true \/
       (abs (SplitSpec.sumGrad gradients) <? 1e-10)%float = true \/
       (forall f order i,
          f < d -> SplitSpec.ascending X f order -> i + 1 < length X ->
          PrimFloat.eqb (SplitSpec.value_at X (nth i order 0) f)
                        (SplitSpec.value_at X (nth (i + 1) order 0) f) = false ->
          (1e-10 <=? SplitSpec.gain gradients (firstn (i + 1) order))%float = false)) /\
    (forall v, node = Leaf v ->
               v = (SplitSpec.sumGrad gradients / (SplitSpec.count gradients + 1e-10))%float).
Proof.
  intros Hlen Harity Hnum.
  set (gs := map Some gradients : list value).
  assert (Hlen' : length X = length gs) by (unfold gs; now rewrite length_map).
  destruct (buildTree_ok this (length X) X gs depth (le_n _)) as [node Hnode].
  { destruct X; [right|left; discriminate]. now destruct gs. }
  exists node. split; [exact Hnode|].
  rewrite buildTree_unfold in Hnode. cbv zeta in Hnode.
  set (sumGrad := SplitSpec.sumGrad gradients) in *.
  set (count := SplitSpec.count gradients) in *.
  assert (Hsum : sum_of gs = sumGrad) by apply sum_of_spec.
  assert (Hcount : of_nat (@length value gs) = count)
    by (unfold gs, count, SplitSpec.count; now rewrite length_map).
  rewrite Hsum, Hcount in Hnode.
  pose proof (stop_iff this depth sumGrad count) as Hstop_iff.
  change eps with 1e-10%float in Hstop_iff.
  pose proof (candidate_gains_spec X gradients d
                (fun gain => (eps <=? gain)%float = false) Hlen Harity Hnum) as Hspec.
  fold sumGrad count gs in Hspec.
  destruct (stop this depth sumGrad count) eqn:Hstop.
  { injection Hnode as <-. split.
    - split; [intros _|reflexivity]. destruct Hstop_iff as [H _]. specialize (H eq_refl). tauto.
    - now intros v [= <-]. }
  assert (Hnostop : ~ ((depth >= maxDepth this)%Z \/
                       (count <? minChildWeight this)%float = true \/
                       (abs sumGrad <? 1e-10)%float = true)).
  { intros H. apply Hstop_iff in H. discriminate. }
  destruct (findBestSplit X gs sumGrad count) as [best| |] eqn:Hfind; try discriminate.
  simpl in Hnode.
  pose proof (track_leaf_test (candidate_gains X gs sumGrad count)) as Htest.
  cbv zeta in Htest. rewrite <- (findBestSplit_summary _ _ _ _ _ Hfind) in Htest.
  unfold summary in Htest. simpl in Htest.
  rewrite Hspec in Htest.
  destruct (snd best) as [s|] eqn:Hs.
  - destruct (fst best <? eps)%float eqn:Hgain.
    + injection Hnode as <-. split.
      * split; [intros _|reflexivity]. do 3 right. apply Htest. now right.
      * now intros v [= <-].
    + destruct (_buildTree this (rows X (leftIndices s)) _ _) as [l| |]; try discriminate.
      destruct (_buildTree this (rows X (rightIndices s)) _ _) as [r| |]; try discriminate.
      injection Hnode as <-. split; [|discriminate].
      split; [discriminate|]. intros [H | [H | [H | H]]]; try tauto.
      apply Htest in H. destruct H; discriminate.
  - injection Hnode as <-. split.
    + split; [intros _|reflexivity]. do 3 right. apply Htest. now left.
    + now intros v [= <-].
Qed.

Lemma leaf_iff_witness :
  let gradients := [-0.5; 0.5; 0.5]%float in
  exists node,
    _buildTree two_rounds X3 (map Some gradients) 0 = Ok node /\
    (is_leaf node = true <->
       (0 >= maxDepth two_rounds)%Z \/
       (SplitSpec.count gradients <? minChildWeight two_rounds)%float = true \/
       (abs (SplitSpec.sumGrad gradients) <? 1e-10)%float = true \/
       (forall f order i,
          f < 2 -> SplitSpec.ascending X3 f order -> i + 1 < length X3 ->
          PrimFloat.eqb (SplitSpec.value_at X3 (nth i order 0) f)
                        (SplitSpec.value_at X3 (nth (i + 1) order 0) f) = false ->
          (1e-10 <=? SplitSpec.gain gradients (firstn (i + 1) order))%float = false)) /\
    (forall v, node = Leaf v ->
               v = (SplitSpec.sumGrad gradients / (SplitSpec.count gradients + 1e-10))%float).
Proof.
  apply (leaf_iff two_rounds X3 [-0.5; 0.5; 0.5]%float 0 2).
  - reflexivity.
  - repeat constructor.
  - repeat constructor.
Defined.

(** The same call, value by value: in the ascending order of feature 0 the
    boundary after the first sample is a candidate of gain about 0.67, and
    the call returns an Internal node; its gradients sum to 0.5 over 3
    samples. *)
Example leaf_iff_values :
  let gradients := [-0.5; 0.5; 0.5]%float in
  SplitSpec.ascending X3 0 [0; 2; 1] /\
  SplitSpec.gain gradients (firstn 1 [0; 2; 1]) = 0.6666666666194444%float /\
  SplitSpec.gain gradients (firstn 2 [0; 2; 1]) = 0.16666666664444446%float /\
  SplitSpec.sumGrad gradients = 0.5%float /\
  SplitSpec.count gradients = 3%float /\
  _buildTree two_rounds X3 (map Some gradients) 0 =
  Ok (Internal 0 1.5 (Leaf (-0.49999999995)) (Leaf 0.499999999975)).
Proof.
  cbv zeta. split; [|repeat split; vm_compute; reflexivity].
  split; [apply (sortedIndices_perm X3 0)|].
  repeat constructor; left; vm_compute; reflexivity.
Qed.

(** * Fitting again *)

Lemma predict_loop_app this x ts1 ts2 :
  forall pred,
    predict_loop this x (ts1 ++ ts2) pred =
    (p1 <- predict_loop this x ts1 pred ;; predict_loop this x ts2 p1).
Proof.
  induction ts1 as [|tree ts1 IH]; intros pred; simpl; [reflexivity|].
  destruct (_predict (Some x) (root tree)); simpl; auto.
Qed.

Lemma predict_loop_with_trees this ts x l :
  forall pred, predict_loop (with_trees this ts) x l pred = predict_loop this x l pred.
Proof.
  induction l as [|tree l IH]; intros pred; simpl; [reflexivity|].
  destruct (_predict (Some x) (root tree)); simpl; auto.
Qed.

(** The first gradients of a [fit] are the labels minus 0.5. *)
Lemma gradients_of_base y :
  gradients_of y (base_predictions y) = map (fun actual => Some (actual - 0.5)%float) y.
Proof.
  unfold gradients_of, base_predictions, mapi.
  assert (H : forall l i n, i + length l <= n ->
            mapi_from (fun actual idx =>
                         Some (actual - ToNumber (get (repeat (Some 0.5%float) n) idx))%float) i l
            = map (fun actual => Some (actual - 0.5)%float) l).
  { induction l as [|a l IH]; intros i n Hn; simpl in *; [reflexivity|].
    unfold get at 1. rewrite nth_error_repeat by lia. simpl. f_equal. apply IH. lia. }
  now apply H.
Qed.

Lemma fit_loop_with_trees n this ts X y predictions :
  fit_loop n (with_trees this ts) X y predictions =
  (with_trees this (ts ++ map tree_of_round (fit_rounds n this X y predictions)),
   snd (fit_loop n this X y predictions)).
Proof.
  revert this ts predictions.
  induction n as [|n IH]; intros this ts predictions; simpl.
  - now rewrite app_nil_r.
  - rewrite (buildTree_ext (with_trees this ts) this) by reflexivity.
    destruct (_buildTree this X _ 0) as [tree| |]; simpl; try now rewrite app_nil_r.
    rewrite (update_predictions_ext (push (with_trees this ts) tree) (push this tree))
      by reflexivity.
    destruct (update_predictions _ _ _ _) as [p'| |]; simpl; try reflexivity.
    unfold push. change (trees (with_trees this ts)) with ts.
    rewrite with_trees_with_trees, (IH this (ts ++ [{| root := tree |}]) p').
    rewrite (IH this (trees this ++ [{| root := tree |}]) p'), fit_rounds_with_trees.
    rewrite <- app_assoc. reflexivity.
Qed.

(** ** The prediction of the specification *)

Lemma traverse_predict x node v :
  PredictSpec.traverse x node v -> _predict (Some x) node = Ok v.
Proof.
  induction 1 as [v|f t l r v Hle _ IH|f t l r v Hle _ IH]; simpl;
    [reflexivity|rewrite ToNumber_nth_error, Hle; exact IH..].
Qed.

Lemma traverse_defined x node : exists v, PredictSpec.traverse x node v.
Proof.
  induction node as [v|f t l [vl IHl] r [vr IHr]].
  - exists v. constructor.
  - destruct (nth f x nan <=? t)%float eqn:Hle.
    + exists vl. now apply PredictSpec.traverse_left.
    + exists vr. now apply PredictSpec.traverse_right.
Qed.

Lemma traverse_all_defined x ts :
  exists contributions,
    Forall2 (fun tree c => PredictSpec.traverse x (root tree) c) ts contributions.
Proof.
  induction ts as [|tree ts [cs IH]]; [exists []; constructor|].
  destruct (traverse_defined x (root tree)) as [c Hc]. exists (c :: cs). now constructor.
Qed.

Lemma predict_loop_contributions this x ts contributions :
  Forall2 (fun tree c => PredictSpec.traverse x (root tree) c) ts contributions ->
  forall pred,
    predict_loop this x ts pred =
    Ok (fold_left (fun score c => (score + learningRate this * c)%float) contributions pred).
Proof.
  induction 1 as [|tree c ts cs Hc _ IH]; intros pred; simpl; [reflexivity|].
  rewrite (traverse_predict _ _ _ Hc). simpl. apply IH.
Qed.

(** [predictSingle] is the sigmoid of the raw score of the specification
    over the trees of the model. *)
Lemma predictSingle_contributions Math_exp this x contributions :
  Forall2 (fun tree c => PredictSpec.traverse x (root tree) c) (trees this) contributions ->
  predictSingle Math_exp this x =
  Ok (PredictSpec.sigmoid Math_exp (PredictSpec.rawScore (learningRate this) contributions)).
Proof.
  intros H. unfold predictSingle. now rewrite (predict_loop_contributions this x _ _ H).
Qed.

(** C10: a second [fit] on a trained model returns normally (given as many
    rows as labels), keeps the trees it had and appends [numRounds] trees;
    the appended trees are the ones the same call appends to a model with the
    same hyperparameters and no trees, its first gradients being the labels
    minus 0.5.  The trees of the model are then those it had before the first
    call, the [numRounds] trees [first] of the first call and the trees [new]
    of the second, in this order; every vector has a contribution from each
    of them,
    and [predictSingle] on the refitted model is the sigmoid of 0.5 plus the
    sum of [learningRate] times these contributions, with [traverse], the
    raw score and the sigmoid as the specification words them
    ([PredictSpec]). *)
Theorem refit_appends this X y trained X' y' :
  fit this X y = (trained, Ok tt) ->
  length y' <= length X' ->
  let fresh := with_trees trained [] in
  let rounds := fit_rounds (Z.to_nat (numRounds trained)) fresh X' y' (base_predictions y') in
  let new := map tree_of_round rounds in
  let first :=
    map tree_of_round (fit_rounds (Z.to_nat (numRounds this)) this X y (base_predictions y)) in
  fit trained X' y' = (with_trees trained (trees trained ++ new), Ok tt) /\
  fit fresh X' y' = (with_trees trained new, Ok tt) /\
  length new = Z.to_nat (numRounds trained) /\
  (forall gradients tree rest,
     rounds = (gradients, tree) :: rest ->
     gradients = map (fun actual => Some (actual - 0.5)%float) y') /\
  trees trained = trees this ++ first /\
  length first = Z.to_nat (numRounds this) /\
  trees (fst (fit trained X' y')) = trees this ++ first ++ new /\
  (forall x, exists contributions,
     Forall2 (fun tree c => PredictSpec.traverse x (root tree) c)
             (trees this ++ first ++ new) contributions) /\
  (forall Math_exp x contributions,
     Forall2 (fun tree c => PredictSpec.traverse x (root tree) c)
             (trees this ++ first ++ new) contributions ->
     predictSingle Math_exp (fst (fit trained X' y')) x =
     Ok (PredictSpec.sigmoid Math_exp
           (PredictSpec.rawScore (learningRate this) contributions))).
Proof.
  intros Hfit Hlen fresh rounds new first.
  set (n := Z.to_nat (numRounds trained)) in *.
  set (p := base_predictions y') in *.
  pose proof (fit_loop_ok n fresh X' y' p (base_predictions_length y') Hlen) as Hok.
  pose proof (fit_loop_completed n fresh X' y' p Hok) as Hcount.
  assert (Htrained : trained = with_trees this (trees this ++ first)).
  { change trained with (fst (trained, @Ok unit tt)). rewrite <- Hfit.
    unfold fit. apply fit_loop_trees. }
  assert (Hsecond : fit trained X' y' = (with_trees trained (trees trained ++ new), Ok tt)).
  { unfold fit. fold n p.
    rewrite <- (with_trees_self trained) at 1. fold fresh in Hok.
    change (with_trees trained (trees trained)) with (with_trees fresh (trees trained)).
    rewrite fit_loop_with_trees, Hok. reflexivity. }
  assert (Htrees : trees (fst (fit trained X' y')) = trees this ++ first ++ new).
  { rewrite Hsecond. cbn [fst]. change (trees (with_trees trained ?ts)) with ts.
    rewrite Htrained at 1. cbn [trees with_trees]. now rewrite <- app_assoc. }
  assert (Hfirst : length first = Z.to_nat (numRounds this)).
  { unfold first. rewrite length_map. apply fit_loop_completed.
    unfold fit in Hfit. now rewrite Hfit. }
  split; [exact Hsecond|].
  split; [|split; [|split; [|split; [|split; [exact Hfirst|split; [exact Htrees|split]]]]]].
  - unfold fit. change (numRounds fresh) with (numRounds trained). fold n p.
    change fresh with (with_trees fresh []) at 1.
    rewrite fit_loop_with_trees, Hok. reflexivity.
  - unfold new. now rewrite length_map.
  - intros gradients tree rest Hr. subst rounds. destruct n as [|n']; [discriminate|].
    simpl in Hr. unfold p in Hr. rewrite gradients_of_base in Hr.
    destruct (_buildTree fresh X' _ 0); [|discriminate..]. now injection Hr as <- _ _.
  - rewrite Htrained at 1. reflexivity.
  - intros x. apply traverse_all_defined.
  - intros Math_exp x contributions Hc. rewrite <- Htrees in Hc.
    rewrite (predictSingle_contributions Math_exp _ x contributions Hc).
    do 3 f_equal. rewrite Hsecond. cbn [fst]. rewrite Htrained. reflexivity.
Qed.

Lemma refit_appends_witness :
  let trained := fst (fit two_rounds X3 y3) in
  let fresh := with_trees trained [] in
  let rounds := fit_rounds (Z.to_nat (numRounds trained)) fresh X5 y5 (base_predictions y5) in
  let new := map tree_of_round rounds in
  let first :=
    map tree_of_round
        (fit_rounds (Z.to_nat (numRounds two_rounds)) two_rounds X3 y3 (base_predictions y3)) in
  fit trained X5 y5 = (with_trees trained (trees trained ++ new), Ok tt) /\
  fit fresh X5 y5 = (with_trees trained new, Ok tt) /\
  length new = Z.to_nat (numRounds trained) /\
  (forall gradients tree rest,
     rounds = (gradients, tree) :: rest ->
     gradients = map (fun actual => Some (actual - 0.5)%float) y5) /\
  trees trained = trees two_rounds ++ first /\
  length first = Z.to_nat (numRounds two_rounds) /\
  trees (fst (fit trained X5 y5)) = trees two_rounds ++ first ++ new /\
  (forall x, exists contributions,
     Forall2 (fun tree c => PredictSpec.traverse x (root tree) c)
             (trees two_rounds ++ first ++ new) contributions) /\
  (forall Math_exp x contributions,
     Forall2 (fun tree c => PredictSpec.traverse x (root tree) c)
             (trees two_rounds ++ first ++ new) contributions ->
     predictSingle Math_exp (fst (fit trained X5 y5)) x =
     Ok (PredictSpec.sigmoid Math_exp
           (PredictSpec.rawScore (learningRate two_rounds) contributions))).
Proof.
  apply (refit_appends two_rounds X3 y3 (fst (fit two_rounds X3 y3)) X5 y5).
  - vm_compute. reflexivity.
  - simpl. lia.
Defined.

(** The same refit, value by value, on the vector [[0, 0]]: the
    two trees of the first call contribute about -0.5 and -0.35, the two of
    the second call 0 and about -0.5, and the raw score is
    [0.5 + 0.3 * (-0.5 - 0.35 + 0 - 0.5)], about 0.095; before the second
    call it was about 0.245. *)
Example refit_values :
  let trained := fst (fit two_rounds X3 y3) in
  let again := fst (fit trained X5 y5) in
  let contributions := [-0.49999999995; -0.34999999997999998; 0; -0.49999999995]%float in
  Forall2 (fun tree c => PredictSpec.traverse [0; 0]%float (root tree) c)
          (trees again) contributions /\
  PredictSpec.rawScore (learningRate again) contributions = 0.095000000035999982%float /\
  predict_loop trained [0; 0]%float (trees trained) 0.5 = Ok 0.24500000002099998%float /\
  predictSingle exp_series again [0; 0]%float =
  Ok (PredictSpec.sigmoid exp_series 0.095000000035999982).
Proof.
  cbv zeta. split; [|repeat split; vm_compute; reflexivity].
  replace (trees (fst (fit (fst (fit two_rounds X3 y3)) X5 y5)))
    with [{| root := Internal 0 1.5 (Leaf (-0.49999999995)) (Leaf 0.499999999975) |};
          {| root := Internal 0 1.5 (Leaf (-0.34999999997999998))
                              (Leaf 0.34999999998999998) |};
          {| root := Internal 0 0.5 (Leaf 0) (Leaf 0.49999999998333333) |};
          {| root := Internal 1 0.5
                              (Internal 0 0.5 (Leaf (-0.49999999995))
                                        (Leaf 0.34999999998749998))
                              (Internal 0 0.5 (Leaf 0.49999999995)
                                        (Leaf 0.34999999996999998)) |}]%float
    by (vm_compute; reflexivity).
  repeat constructor.
Qed.

(** * The constructor *)

(** C4, as stated, fails: a supplied zero is not stored; [learningRate: 0]
    and [maxDepth: 0] are replaced by the defaults. *)
Lemma constructor_zero_counterexample :
  let supplied := {| p_learningRate := Some 0%float; p_maxDepth := Some 0%Z;
                     p_minChildWeight := None; p_numRounds := None |} in
  learningRate (constructor supplied) = 0.3%float /\
  learningRate (constructor supplied) <> 0%float /\
  maxDepth (constructor supplied) = 4%Z.
Proof.
  cbv zeta. repeat split. intros H.
  apply (f_equal (fun x => PrimFloat.eqb x 0)) in H. vm_compute in H. discriminate.
Qed.

(** C4, amended: the constructor validates nothing.  A supplied value other
    than 0, -0 and NaN (negative values included) is stored unchanged; a
    missing field takes its default, [learningRate = 0.3], [maxDepth = 4],
    [minChildWeight = 1], [numRounds = 100]; the tree list starts empty. *)
Theorem constructor_keeps_truthy params :
  (forall v, p_learningRate params = Some v -> truthy v = true ->
             learningRate (constructor params) = v) /\
  (forall v, p_maxDepth params = Some v -> v <> 0%Z ->
             maxDepth (constructor params) = v) /\
  (forall v, p_minChildWeight params = Some v -> truthy v = true ->
             minChildWeight (constructor params) = v) /\
  (forall v, p_numRounds params = Some v -> v <> 0%Z ->
             numRounds (constructor params) = v) /\
  (p_learningRate params = None -> learningRate (constructor params) = 0.3%float) /\
  (p_maxDepth params = None -> maxDepth (constructor params) = 4%Z) /\
  (p_minChildWeight params = None -> minChildWeight (constructor params) = 1%float) /\
  (p_numRounds params = None -> numRounds (constructor params) = 100%Z) /\
  trees (constructor params) = [].
Proof.
  destruct params as [lr d w n]. unfold constructor. simpl.
  repeat split.
  - intros v -> Hv. simpl. now rewrite Hv.
  - intros v -> Hv. simpl. apply Z.eqb_neq in Hv. now rewrite Hv.
  - intros v -> Hv. simpl. now rewrite Hv.
  - intros v -> Hv. simpl. apply Z.eqb_neq in Hv. now rewrite Hv.
  - now intros ->.
  - now intros ->.
  - now intros ->.
  - now intros ->.
Qed.

Lemma constructor_keeps_truthy_witness :
  let supplied := {| p_learningRate := Some 0.1%float; p_maxDepth := Some (-1)%Z;
                     p_minChildWeight := None; p_numRounds := Some (-5)%Z |} in
  learningRate (constructor supplied) = 0.1%float /\
  maxDepth (constructor supplied) = (-1)%Z /\
  minChildWeight (constructor supplied) = 1%float /\
  numRounds (constructor supplied) = (-5)%Z.
Proof.
  cbv zeta.
  destruct (constructor_keeps_truthy
              {| p_learningRate := Some 0.1%float; p_maxDepth := Some (-1)%Z;
                 p_minChildWeight := None; p_numRounds := Some (-5)%Z |})
    as (Hlr & Hd & _ & Hn & _ & _ & Hw & _).
  split; [|split; [|split]].
  - apply Hlr; reflexivity.
  - apply Hd; [reflexivity|discriminate].
  - apply Hw. reflexivity.
  - apply Hn; [reflexivity|discriminate].
Defined.

(** * Prediction *)

Lemma predict_loop_defined this x ts :
  forall pred, exists p, predict_loop this x ts pred = Ok p.
Proof.
  induction ts as [|tree ts IH]; intros pred; simpl; [eauto|].
  destruct (predict_defined x (root tree)) as [v ->]. simpl. apply IH.
Qed.

Lemma predictSingle_defined Math_exp this x :
  exists p, predictSingle Math_exp this x = Ok p.
Proof.
  unfold predictSingle.
  destruct (predict_loop_defined this x (trees this) 0.5%float) as [p ->].
  simpl. eauto.
Qed.

Lemma predictBatch_defined Math_exp this X :
  exists ps, predictBatch Math_exp this X = Ok ps /\ length ps = length X.
Proof.
  unfold predictBatch, mapiM. apply mapiM_from_ok.
  intros x j _. apply predictSingle_defined.
Qed.

(** C5, as stated, fails: a model trained on two features predicts on the
    empty vector without any error; the root reads feature 0, which the
    vector does not have, and the traversal goes right. *)
Lemma predict_out_of_range_counterexample :
  let model := fst (fit two_rounds X3 y3) in
  (exists t l r tree', trees model = [{| root := Internal 0 t l r |}; tree'] /\
                       _predict (Some []) (Internal 0 t l r) = _predict (Some []) r) /\
  (forall Math_exp, exists p,
      predictSingle Math_exp model [] = Ok p /\
      predictBatch Math_exp model [[]] = Ok [p]).
Proof.
  cbv zeta. split.
  - vm_compute. do 4 eexists. split; reflexivity.
  - intros Math_exp.
    destruct (predictSingle_defined Math_exp (fst (fit two_rounds X3 y3)) []) as [p Hp].
    exists p. split; [exact Hp|].
    unfold predictBatch, mapiM, mapiM_from. now rewrite Hp.
Qed.

(** C5, amended: prediction raises no error.  Reading a feature index at or
    beyond the arity of the vector gives [undefined], the comparison
    [undefined <= threshold] is false, and the traversal continues in the
    right child; [predictSingle] and [predictBatch] always return. *)
Theorem predict_out_of_range_goes_right x featureIndex threshold l r :
  length x <= featureIndex ->
  _predict (Some x) (Internal featureIndex threshold l r) = _predict (Some x) r /\
  (forall Math_exp this, exists p, predictSingle Math_exp this x = Ok p) /\
  (forall Math_exp this X, exists ps,
      predictBatch Math_exp this X = Ok ps /\ length ps = length X).
Proof.
  intros Hlen. repeat split.
  - simpl. apply nth_error_None in Hlen. rewrite Hlen. simpl.
    now rewrite FloatOrder.nan_leb.
  - intros. apply predictSingle_defined.
  - intros. apply predictBatch_defined.
Qed.

Lemma predict_out_of_range_goes_right_witness :
  _predict (Some [7%float]) (Internal 1 2.5 (Leaf 1) (Leaf 2)) =
  _predict (Some [7%float]) (Leaf 2) /\
  (forall Math_exp this, exists p, predictSingle Math_exp this [7%float] = Ok p) /\
  (forall Math_exp this X, exists ps,
      predictBatch Math_exp this X = Ok ps /\ length ps = length X).
Proof.
  apply (predict_out_of_range_goes_right [7%float] 1 2.5%float (Leaf 1) (Leaf 2)).
  simpl. lia.
Defined.

(** * Serialization *)

Lemma or_default_stable v d : or_default (Some (or_default v d)) d = or_default v d.
Proof.
  unfold or_default. destruct v as [x|].
  - destruct (truthy x) eqn:Hx; [now rewrite Hx|]. now destruct (truthy d).
  - now destruct (truthy d).
Qed.

Lemma or_defaultZ_stable v d : or_defaultZ (Some (or_defaultZ v d)) d = or_defaultZ v d.
Proof.
  unfold or_defaultZ. destruct v as [x|].
  - destruct (Z.eqb x 0) eqn:Hx; [|now rewrite Hx]. now destruct (Z.eqb d 0).
  - now destruct (Z.eqb d 0).
Qed.

(** A model made by the constructor, whatever its trees, comes back
    unchanged from [toJSON] and [fromJSON]. *)
Lemma fromJSON_toJSON params ts :
  fromJSON (toJSON (with_trees (constructor params) ts)) = with_trees (constructor params) ts.
Proof.
  unfold fromJSON, toJSON, constructor, with_trees. cbn -[or_default or_defaultZ].
  now rewrite !or_default_stable, !or_defaultZ_stable.
Qed.

Lemma fit_with_trees this X y :
  fst (fit this X y) = with_trees this (trees (fst (fit this X y))).
Proof. unfold fit. now rewrite fit_loop_trees. Qed.

(** For a finite [p], [p - p] is [+0]; for any other, it is NaN. *)
Lemma self_check p : (abs (p - p) <? 1e-6)%float = is_finite p.
Proof.
  destruct (is_finite p) eqn:Hp; [now apply FloatOrder.sub_self_small|].
  revert Hp. unfold is_finite, is_nan, is_infinity.
  rewrite !FloatAxioms.eqb_spec, FloatAxioms.ltb_spec, !FloatAxioms.abs_spec,
    FloatAxioms.sub_spec.
  change (Prim2SF infinity) with (S754_infinity false).
  destruct (Prim2SF p) as [s|s| |s m e]; intros Hp.
  - destruct s; discriminate.
  - destruct s; reflexivity.
  - reflexivity.
  - exfalso. revert Hp. unfold SFeqb. simpl.
    destruct s; rewrite Z.compare_refl;
      change (Pos.compare_cont Eq m m) with (Pos.compare m m);
      rewrite Pos.compare_refl; discriminate.
Qed.

(** C6, as stated, fails: three samples with finite labels train a model
    whose raw score is NaN (its two trees are the Leaves [+Infinity] and
    [-Infinity]); with any [Math.exp] that returns NaN on NaN, as the
    language requires, the prediction is NaN before and after the round
    trip, and [|NaN - NaN| < 1e-6] is false. *)
Lemma roundtrip_tolerance_counterexample :
  let model := fst (fit two_rounds X_line y_huge) in
  let restored := fromJSON (toJSON model) in
  trees model = [{| root := Leaf infinity |}; {| root := Leaf neg_infinity |}] /\
  forall Math_exp, Math_exp nan = nan ->
    exists p q,
      predictBatch Math_exp model [[0%float]] = Ok [p] /\
      predictBatch Math_exp restored [[0%float]] = Ok [q] /\
      (abs (p - q) <? 1e-6)%float = false.
Proof.
  cbv zeta. split; [vm_compute; reflexivity|].
  intros Math_exp Hnan. exists nan, nan.
  assert (Hp : predict_loop (fst (fit two_rounds X_line y_huge)) [0%float]
                 (trees (fst (fit two_rounds X_line y_huge))) 0.5%float = Ok nan)
    by (vm_compute; reflexivity).
  assert (H : predictBatch Math_exp (fst (fit two_rounds X_line y_huge)) [[0%float]] = Ok [nan]).
  { unfold predictBatch, mapiM. cbn [mapiM_from]. unfold predictSingle. rewrite Hp.
    cbn [JS.bind]. change (- nan)%float with nan. rewrite Hnan. reflexivity. }
  split; [exact H|]. split; [|reflexivity].
  replace (fromJSON (toJSON (fst (fit two_rounds X_line y_huge))))
    with (fst (fit two_rounds X_line y_huge)) by (vm_compute; reflexivity).
  exact H.
Qed.

(** C6, amended: for a model made by the constructor and trained by [fit],
    the model read back from its JSON record is the same model; on a batch
    for which [predictBatch] returns the predictions [ps], one for each
    vector, it returns the same sequence for the restored model; and element
    by element the check [|p - q| < 1e-6] holds exactly when the prediction
    is a finite number. *)
Theorem roundtrip_predictBatch Math_exp params X y batch ps :
  let model := fst (fit (constructor params) X y) in
  let restored := fromJSON (toJSON model) in
  predictBatch Math_exp model batch = Ok ps ->
  restored = model /\
  length ps = length batch /\
  exists qs,
    predictBatch Math_exp restored batch = Ok qs /\
    qs = ps /\
    Forall2 (fun p q => (abs (p - q) <? 1e-6)%float = is_finite p) ps qs.
Proof.
  cbv zeta. intros Hps.
  assert (E : fromJSON (toJSON (fst (fit (constructor params) X y))) =
              fst (fit (constructor params) X y)).
  { rewrite (fit_with_trees (constructor params) X y). apply fromJSON_toJSON. }
  split; [exact E|]. rewrite E.
  destruct (predictBatch_defined Math_exp (fst (fit (constructor params) X y)) batch)
    as (ps' & Hps' & Hlen).
  split; [congruence|].
  exists ps. repeat split; auto.
  clear. induction ps as [|p ps IH]; constructor; auto.
  apply self_check.
Qed.

Lemma roundtrip_predictBatch_witness :
  let model := fst (fit (constructor (params None (Some 2%Z))) X3 y3) in
  let restored := fromJSON (toJSON model) in
  let ps := [0.5602201665304205; 0.65358943145779447]%float in
  predictBatch exp_series model [[0; 0]; [10; 10]]%float = Ok ps /\
  restored = model /\
  length ps = 2 /\
  exists qs,
    predictBatch exp_series restored [[0; 0]; [10; 10]]%float = Ok qs /\
    qs = ps /\
    Forall2 (fun p q => (abs (p - q) <? 1e-6)%float = is_finite p) ps qs.
Proof.
  cbv zeta. split; [vm_compute; reflexivity|].
  apply (roundtrip_predictBatch exp_series (params None (Some 2%Z)) X3 y3
           [[0; 0]; [10; 10]]%float [0.5602201665304205; 0.65358943145779447]%float).
  vm_compute. reflexivity.
Defined.

(** * Feature importance *)

Lemma set_length a i v : length (JS.set a i v) = Nat.max (length a) (S i).
Proof.
  unfold JS.set. destruct (i <? length a) eqn:Hi.
  - apply Nat.ltb_lt in Hi.
    rewrite length_app, length_firstn.
    change (length (v :: skipn (S i) a)) with (S (length (skipn (S i) a))).
    rewrite length_skipn. lia.
  - apply Nat.ltb_ge in Hi.
    rewrite !length_app, repeat_length. simpl. lia.
Qed.

(** Reading back after a write. *)
Lemma get_set a i v j : get (JS.set a i v) j = if j =? i then v else get a j.
Proof.
  unfold JS.set, get. destruct (i <? length a) eqn:Hi.
  - apply Nat.ltb_lt in Hi.
    rewrite nth_error_app, length_firstn, Nat.min_l by lia.
    destruct (j <? i) eqn:Hji.
    + apply Nat.ltb_lt in Hji. rewrite nth_error_firstn.
      replace (j <? i) with true by (symmetry; now apply Nat.ltb_lt).
      replace (j =? i) with false by (symmetry; apply Nat.eqb_neq; lia). reflexivity.
    + apply Nat.ltb_ge in Hji. destruct (j =? i) eqn:Hje.
      * apply Nat.eqb_eq in Hje. subst. now rewrite Nat.sub_diag.
      * apply Nat.eqb_neq in Hje. destruct (j - i) as [|k] eqn:Hk; [lia|].
        cbn [nth_error]. rewrite nth_error_skipn.
        now replace (S i + k) with j by lia.
  - apply Nat.ltb_ge in Hi. rewrite nth_error_app.
    destruct (j <? length a) eqn:Hja.
    + apply Nat.ltb_lt in Hja.
      replace (j =? i) with false by (symmetry; apply Nat.eqb_neq; lia). reflexivity.
    + apply Nat.ltb_ge in Hja.
      replace (nth_error a j) with (@None value) by (symmetry; now apply nth_error_None).
      rewrite nth_error_app, repeat_length.
      destruct (j - length a <? i - length a) eqn:Hr.
      * apply Nat.ltb_lt in Hr. rewrite nth_error_repeat by exact Hr.
        replace (j =? i) with false by (symmetry; apply Nat.eqb_neq; lia). reflexivity.
      * apply Nat.ltb_ge in Hr. destruct (j =? i) eqn:Hje.
        -- apply Nat.eqb_eq in Hje. subst. now rewrite Nat.sub_diag.
        -- apply Nat.eqb_neq in Hje.
           destruct (j - length a - (i - length a)) as [|k] eqn:Hk; [lia|].
           simpl. now destruct k.
Qed.

Lemma traverse_length node :
  forall importance,
    length (_traverseTreeForImportance node importance) =
    Nat.max (length importance) (_getNumFeatures node).
Proof.
  induction node as [v|f t l IHl r IHr]; intros importance; simpl; [lia|].
  rewrite IHr, IHl, set_length. lia.
Qed.

(** The traversal increments the entry of feature [f] once for every
    Internal node that splits on [f]. *)
Lemma traverse_get node f :
  forall importance,
    get (_traverseTreeForImportance node importance) f =
    Nat.iter (splits_on f node) increment (get importance f).
Proof.
  induction node as [v|f' t l IHl r IHr]; intros importance; simpl; [reflexivity|].
  rewrite IHr, IHl, get_set, Nat.eqb_sym.
  replace ((if f' =? f then 1 else 0) + splits_on f l + splits_on f r)
    with (splits_on f r + (splits_on f l + (if f' =? f then 1 else 0))) by lia.
  rewrite !Nat.iter_add.
  destruct (f' =? f) eqn:Hf; [|reflexivity].
  apply Nat.eqb_eq in Hf. subst. reflexivity.
Qed.

Lemma importance_fold_length ts :
  forall importance,
    length (fold_left (fun importance tree =>
                         _traverseTreeForImportance (root tree) importance) ts importance)
    = Nat.max (length importance)
              (fold_right (fun tree n => Nat.max (_getNumFeatures (root tree)) n) 0 ts).
Proof.
  induction ts as [|tree ts IH]; intros importance; simpl; [lia|].
  rewrite IH, traverse_length. lia.
Qed.

Lemma importance_fold_get ts f :
  forall importance,
    get (fold_left (fun importance tree =>
                      _traverseTreeForImportance (root tree) importance) ts importance) f
    = Nat.iter (fold_right (fun tree n => splits_on f (root tree) + n) 0 ts) increment
               (get importance f).
Proof.
  induction ts as [|tree ts IH]; intros importance; simpl; [reflexivity|].
  now rewrite IH, traverse_get, (Nat.add_comm (splits_on f (root tree))), Nat.iter_add.
Qed.

(** The length of the result is one more than the largest feature index of
    any Internal node of any tree, and 0 when there is none. *)
Lemma importance_length this :
  length (getFeatureImportance this) = max_numFeatures this.
Proof.
  unfold getFeatureImportance, max_numFeatures.
  destruct (trees this) as [|tree0 ts] eqn:Hts; [reflexivity|].
  rewrite importance_fold_length, repeat_length. simpl. lia.
Qed.

(** Every entry has been incremented once per Internal node of the ensemble
    that splits on its feature; but only the entries below the size the
    first tree gives started at 0, the others started [undefined]. *)
Lemma importance_entry this tree0 ts f :
  trees this = tree0 :: ts ->
  get (getFeatureImportance this) f =
  Nat.iter (ensemble_splits_on f this) increment
           (if f <? _getNumFeatures (root tree0) then Some 0%float else None).
Proof.
  intros Hts. unfold getFeatureImportance, ensemble_splits_on. rewrite Hts.
  rewrite importance_fold_get. f_equal.
  unfold get. destruct (f <? _getNumFeatures (root tree0)) eqn:Hf.
  - apply Nat.ltb_lt in Hf. now rewrite nth_error_repeat.
  - apply Nat.ltb_ge in Hf.
    destruct (nth_error _ f) as [v|] eqn:E; [|reflexivity].
    assert (Hlt : f < length (repeat (Some 0%float) (_getNumFeatures (root tree0)))).
    { apply nth_error_Some. unfold value in *. congruence. }
    rewrite repeat_length in Hlt. lia.
Qed.

(** An entry that started [undefined] and was incremented is NaN. *)
Lemma increment_undefined k : Nat.iter (S k) increment None = Some nan.
Proof. induction k as [|k IH]; [reflexivity|]. simpl in *. now rewrite IH. Qed.

(** C2 fails on the code: the array is sized from the first tree only.  On
    the five-sample data, with one split per tree, the first tree splits on
    feature 0 and the second on feature 1; the entry of feature 1 is then
    [undefined + 1], which is NaN, while one Internal node splits on it. *)
Lemma importance_of_late_feature_is_nan :
  let model := fst (fit (constructor (params (Some 1%Z) (Some 2%Z))) X5 y5) in
  map (fun tree => _getNumFeatures (root tree)) (trees model) = [1; 2] /\
  getFeatureImportance model = [Some 1%float; Some nan] /\
  ensemble_splits_on 0 model = 1 /\
  ensemble_splits_on 1 model = 1.
Proof. vm_compute. repeat split. Qed.

(** * Further properties of [_buildTree] *)

(** X1: [_buildTree] always comes back: the recursion never uses up its
    budget.  On a non-empty [X] it returns a node.  On an empty [X] it
    returns the leaf when a stopping condition holds and otherwise throws
    the [TypeError] of [X[0].length]. *)
Theorem buildTree_outcome this X gradients depth :
  _buildTree this X gradients depth <> Fuel /\
  (X <> [] -> exists node, _buildTree this X gradients depth = Ok node) /\
  (X = [] ->
   _buildTree this X gradients depth =
   if stop this depth (sum_of gradients) (of_nat (length gradients))
   then Ok (leaf_of (sum_of gradients) (of_nat (length gradients)))
   else Throw TypeError).
Proof.
  split; [apply buildTree_terminates|]. split.
  - intros HX. apply (buildTree_ok this (length X)); auto.
  - intros ->. rewrite buildTree_unfold. cbv zeta.
    destruct (stop _ _ _ _); reflexivity.
Qed.

Lemma buildTree_outcome_witness :
  _buildTree two_rounds [] [Some 1%float] 0 <> Fuel /\
  (@nil (list float) <> [] ->
   exists node, _buildTree two_rounds [] [Some 1%float] 0 = Ok node) /\
  (@nil (list float) = [] ->
   _buildTree two_rounds [] [Some 1%float] 0 =
   if stop two_rounds 0 (sum_of [Some 1%float]) (of_nat (length [Some 1%float]))
   then Ok (leaf_of (sum_of [Some 1%float]) (of_nat (length [Some 1%float])))
   else Throw TypeError).
Proof. apply (buildTree_outcome two_rounds [] [Some 1%float] 0). Defined.

Lemma buildTree_fuel_size fuel :
  forall this X gradients depth node,
    buildTree_fuel fuel this X gradients depth = Ok node ->
    count_leaves node <= Nat.max 1 (length X).
Proof.
  induction fuel as [|fuel IH]; intros this X gradients depth node;
    rewrite buildTree_fuel_unfold; cbv zeta;
    (destruct (stop _ _ _ _); [intros [= <-]; unfold leaf_of; cbn [count_leaves]; lia|]);
    (destruct (findBestSplit _ _ _ _) as [best| |] eqn:Hfind; cbn [JS.bind]; try discriminate);
    (destruct (snd best) as [s|] eqn:Hs; [|intros [= <-]; unfold leaf_of; cbn [count_leaves]; lia]);
    (destruct (fst best <? eps)%float; [intros [= <-]; unfold leaf_of; cbn [count_leaves]; lia|]);
    [discriminate|].
  pose proof (findBestSplit_valid _ _ _ _ _ Hfind s Hs) as Hv.
  destruct (valid_split_lengths _ _ Hv) as (Hl & Hr & Hsum).
  destruct (buildTree_fuel fuel this (rows X (leftIndices s)) _ _) as [l| |] eqn:El;
    cbn [JS.bind]; try discriminate.
  destruct (buildTree_fuel fuel this (rows X (rightIndices s)) _ _) as [r| |] eqn:Er;
    cbn [JS.bind]; try discriminate.
  intros [= <-]. cbn [count_leaves].
  apply IH in El. apply IH in Er. rewrite rows_length in El, Er. lia.
Qed.

Lemma count_internal_leaves node : count_internal node + 1 = count_leaves node.
Proof. induction node; simpl; lia. Qed.

(** X2: a tree built from [n] rows has at most [max(1, n)] leaves and at most
    [n - 1] Internal nodes, whatever [maxDepth] is: every split leaves at
    least one row on each side. *)
Theorem buildTree_size this X gradients depth node :
  _buildTree this X gradients depth = Ok node ->
  count_leaves node <= Nat.max 1 (length X) /\
  count_internal node <= length X - 1.
Proof.
  intros H. apply buildTree_fuel_size in H.
  pose proof (count_internal_leaves node). lia.
Qed.

Lemma buildTree_size_witness :
  count_leaves (Internal 0 1.5 (Leaf (-0.49999999995)) (Leaf 0.499999999975))
  <= Nat.max 1 (length X3) /\
  count_internal (Internal 0 1.5 (Leaf (-0.49999999995)) (Leaf 0.499999999975))
  <= length X3 - 1.
Proof.
  apply (buildTree_size two_rounds X3 (gradients_of y3 (base_predictions y3)) 0).
  vm_compute. reflexivity.
Defined.

Lemma scan_step_feature_below X gradients sumGrad count f sorted st i d :
  f < d ->
  (forall s, snd (snd st) = Some s -> s_featureIndex s < d) ->
  forall s, snd (snd (scan_step X gradients sumGrad count f sorted st i)) = Some s ->
            s_featureIndex s < d.
Proof.
  intros Hf Hst. destruct st as [sc best]. unfold scan_step.
  destruct (strict_eq _ _); [exact Hst|].
  destruct (fst best <? _)%float; [|exact Hst].
  intros s Hs. simpl in Hs. injection Hs as <-. exact Hf.
Qed.

Lemma findBestSplit_feature_below X gradients sumGrad count best d :
  Forall (fun row => length row <= d) X ->
  findBestSplit X gradients sumGrad count = Ok best ->
  forall s, snd best = Some s -> s_featureIndex s < d.
Proof.
  unfold findBestSplit. destruct X as [|row0 X']; [discriminate|].
  intros HX [= <-]. inversion HX as [|? ? Hrow0 _]; subst.
  apply (fold_left_invariant (fun best => forall s, snd best = Some s -> s_featureIndex s < d)).
  - intros best f Hf Hbest. apply in_seq in Hf. unfold feature_step.
    apply (fold_left_invariant
             (fun st => forall s, snd (snd st) = Some s -> s_featureIndex s < d));
      [|exact Hbest].
    intros st i _ Hst. apply scan_step_feature_below; [lia|exact Hst].
  - intros s Hs. discriminate.
Qed.

Lemma rows_arity X indices d :
  Forall (fun row => length row <= d) X ->
  Forall (fun row => length row <= d) (rows X indices).
Proof.
  intros HX. unfold rows. apply Forall_map, Forall_forall. intros i _.
  destruct (nth_in_or_default i X []) as [Hin | ->]; [|simpl; lia].
  rewrite Forall_forall in HX. now apply HX.
Qed.

Lemma buildTree_fuel_features fuel :
  forall this X gradients depth node d,
    Forall (fun row => length row <= d) X ->
    buildTree_fuel fuel this X gradients depth = Ok node ->
    features_below d node.
Proof.
  induction fuel as [|fuel IH]; intros this X gradients depth node d HX;
    rewrite buildTree_fuel_unfold; cbv zeta;
    (destruct (stop _ _ _ _); [intros [= <-]; exact I|]);
    (destruct (findBestSplit _ _ _ _) as [best| |] eqn:Hfind; simpl; try discriminate);
    (destruct (snd best) as [s|] eqn:Hs; [|intros [= <-]; exact I]);
    (destruct (fst best <? eps)%float; [intros [= <-]; exact I|]);
    [discriminate|].
  destruct (buildTree_fuel fuel this (rows X (leftIndices s)) _ _) as [l| |] eqn:El;
    simpl; try discriminate.
  destruct (buildTree_fuel fuel this (rows X (rightIndices s)) _ _) as [r| |] eqn:Er;
    simpl; try discriminate.
  intros [= <-]. simpl. repeat split.
  - exact (findBestSplit_feature_below _ _ _ _ _ _ HX Hfind s Hs).
  - eapply IH; [|exact El]. now apply rows_arity.
  - eapply IH; [|exact Er]. now apply rows_arity.
Qed.

(** X3: when no row of [X] has more than [d] features, every Internal node of
    the tree built from [X] splits on a feature index below [d]. *)
Theorem buildTree_features_below this X gradients depth node d :
  Forall (fun row => length row <= d) X ->
  _buildTree this X gradients depth = Ok node ->
  features_below d node.
Proof. intros HX. now apply buildTree_fuel_features. Qed.

Lemma buildTree_features_below_witness :
  features_below 2 (Internal 0 1.5 (Leaf (-0.49999999995)) (Leaf 0.499999999975)).
Proof.
  apply (buildTree_features_below two_rounds X3 (gradients_of y3 (base_predictions y3)) 0).
  - unfold X3. repeat constructor.
  - vm_compute. reflexivity.
Defined.





(** * Further properties of [fit] *)

Lemma fit_rounds_bound n :
  forall this X y predictions, length (fit_rounds n this X y predictions) <= n.
Proof.
  induction n as [|n IH]; intros this X y predictions; simpl; [lia|].
  destruct (_buildTree this X _ 0); simpl; try lia.
  destruct (update_predictions _ _ _ _); simpl; try lia.
  specialize (IH (push this a) X y a0). lia.
Qed.

(** X5: whether it returns or throws, [fit] leaves the hyperparameters and
    the trees the model had untouched and only appends trees, at most
    [numRounds] of them. *)
Theorem fit_appends_only this X y :
  exists new,
    fst (fit this X y) = with_trees this (trees this ++ new) /\
    length new <= Z.to_nat (numRounds this) /\
    (snd (fit this X y) = Ok tt -> length new = Z.to_nat (numRounds this)).
Proof.
  unfold fit.
  exists (map tree_of_round (fit_rounds (Z.to_nat (numRounds this)) this X y
                                        (base_predictions y))).
  rewrite length_map. split; [apply fit_loop_trees|]. split.
  - apply fit_rounds_bound.
  - apply fit_loop_completed.
Qed.

Lemma fit_appends_only_witness :
  exists new,
    fst (fit two_rounds X_ragged [0; 1; 1]%float) =
    with_trees two_rounds (trees two_rounds ++ new) /\
    length new <= Z.to_nat (numRounds two_rounds) /\
    (snd (fit two_rounds X_ragged [0; 1; 1]%float) = Ok tt ->
     length new = Z.to_nat (numRounds two_rounds)).
Proof. apply (fit_appends_only two_rounds X_ragged [0; 1; 1]%float). Defined.

(** X6: with no labels every round builds the Leaf [0 / (0 + 1e-10) = 0]
    without looking at [X], and [fit] returns normally. *)
Theorem fit_no_labels this X :
  fit this X [] =
  (with_trees this (trees this ++ repeat {| root := Leaf 0 |} (Z.to_nat (numRounds this))),
   Ok tt).
Proof.
  unfold fit. simpl base_predictions.
  generalize (Z.to_nat (numRounds this)). intros n. revert this.
  induction n as [|n IH]; intros this; simpl.
  - now rewrite app_nil_r, with_trees_self.
  - unfold gradients_of, mapi. simpl mapi_from.
    rewrite buildTree_unfold. cbv zeta. rewrite stop_no_gradients.
    change (leaf_of (sum_of []) (of_nat (length (@nil value)))) with (Leaf 0).
    unfold update_predictions, mapiM. simpl mapiM_from.
    rewrite IH. unfold push. simpl. now rewrite <- app_assoc.
Qed.

Lemma mapi_from_ext {A B : Type} (f g : A -> nat -> B) l :
  forall i,
    (forall j x, nth_error l j = Some x -> f x (i + j) = g x (i + j)) ->
    mapi_from f i l = mapi_from g i l.
Proof.
  induction l as [|a l IH]; intros i H; simpl; [reflexivity|]. f_equal.
  - specialize (H 0 a eq_refl). now rewrite Nat.add_0_r in H.
  - apply IH. intros j x Hj. specialize (H (S j) x Hj).
    now rewrite Nat.add_succ_r in H.
Qed.

Lemma mapiM_from_nth {A B : Type} (f : A -> nat -> result B) l :
  forall i bs,
    mapiM_from f i l = Ok bs ->
    length bs = length l /\
    forall j x, nth_error l j = Some x ->
                exists b, f x (i + j) = Ok b /\ nth_error bs j = Some b.
Proof.
  induction l as [|a l IH]; intros i bs; simpl.
  - intros [= <-]. split; [reflexivity|]. intros [|j] x; discriminate.
  - destruct (f a i) as [b| |] eqn:Hb; simpl; try discriminate.
    destruct (mapiM_from f (S i) l) as [bs'| |] eqn:Hbs; simpl; try discriminate.
    intros [= <-]. destruct (IH _ _ Hbs) as [Hlen Hnth].
    split; [simpl; now rewrite Hlen|].
    intros [|j] x Hx; simpl in *.
    + injection Hx as <-. rewrite Nat.add_0_r. eauto.
    + rewrite Nat.add_succ_r. now apply Hnth.
Qed.

Lemma gradients_of_residuals this ts X y predictions :
  predictions_track this ts X y predictions ->
  gradients_of y predictions = residuals this ts X y.
Proof.
  intros [Hlen Hp]. unfold gradients_of, residuals, mapi.
  apply mapi_from_ext. intros j actual Hj. simpl.
  assert (Hjlt : j < length predictions).
  { rewrite Hlen. apply nth_error_Some. congruence. }
  destruct (nth_error predictions j) as [pred|] eqn:Epred;
    [|apply nth_error_None in Epred; lia].
  destruct (Hp j pred Epred) as (row & p & -> & -> & ->).
  unfold get. unfold value in *. now rewrite Epred.
Qed.

Lemma update_predictions_track this ts X y tree predictions predictions' :
  predictions_track this ts X y predictions ->
  update_predictions this X tree predictions = Ok predictions' ->
  predictions_track this (ts ++ [{| root := tree |}]) X y predictions'.
Proof.
  intros [Hlen Hp] Hup. unfold update_predictions, mapiM in Hup.
  apply mapiM_from_nth in Hup. destruct Hup as [Hlen' Hnth].
  split; [congruence|].
  intros idx pred' Hpred'.
  assert (Hlt : idx < length predictions).
  { rewrite <- Hlen'. apply nth_error_Some. congruence. }
  destruct (nth_error predictions idx) as [pred|] eqn:Epred;
    [|apply nth_error_None in Epred; lia].
  destruct (Hp idx pred Epred) as (row & p & Hrow & Hloop & ->).
  destruct (Hnth idx (Some p) Epred) as (b & Hb & Hb'). simpl in Hb.
  rewrite Hrow in Hb.
  destruct (_predict (Some row) tree) as [u| |] eqn:Hu; simpl in Hb; try discriminate.
  injection Hb as <-.
  exists row, (p + learningRate this * u)%float. split; [exact Hrow|]. split.
  - rewrite predict_loop_app, Hloop. simpl. now rewrite Hu.
  - congruence.
Qed.

Lemma predictions_track_with_trees this ts' ts X y predictions :
  predictions_track this ts X y predictions ->
  predictions_track (with_trees this ts') ts X y predictions.
Proof.
  intros [Hlen Hp]. split; [exact Hlen|]. intros idx pred H.
  destruct (Hp idx pred H) as (row & p & H1 & H2 & H3).
  exists row, p. now rewrite predict_loop_with_trees.
Qed.

Lemma fit_rounds_residuals n :
  forall this X y ts predictions k gradients tree,
    predictions_track this ts X y predictions ->
    nth_error (fit_rounds n this X y predictions) k = Some (gradients, tree) ->
    gradients =
    residuals this
              (ts ++ map tree_of_round (firstn k (fit_rounds n this X y predictions))) X y.
Proof.
  induction n as [|n IH]; intros this X y ts predictions k gradients tree Htrack;
    simpl; [destruct k; discriminate|].
  destruct (_buildTree this X _ 0) as [tree0| |] eqn:Hb; try (destruct k; discriminate).
  destruct k as [|k]; simpl.
  - intros [= <- _]. rewrite app_nil_r. now apply gradients_of_residuals.
  - destruct (update_predictions _ _ _ _) as [p'| |] eqn:Hup; try (destruct k; discriminate).
    unfold push in *. rewrite fit_rounds_with_trees. intros Hk.
    rewrite (update_predictions_ext _ this) in Hup by reflexivity.
    pose proof (update_predictions_track _ _ _ _ _ _ _ Htrack Hup) as Htrack'.
    rewrite (IH this X y _ p' k gradients tree Htrack' Hk).
    unfold tree_of_round at 3. simpl. now rewrite <- app_assoc.
Qed.

Lemma base_predictions_track this X y :
  length y <= length X ->
  predictions_track this [] X y (base_predictions y).
Proof.
  intros Hlen. split; [apply base_predictions_length|].
  intros idx pred Hidx. unfold base_predictions in Hidx.
  assert (Hlt : idx < length y).
  { rewrite <- (repeat_length (Some 0.5%float) (length y)).
    apply nth_error_Some. unfold value in *. congruence. }
  rewrite nth_error_repeat in Hidx by exact Hlt. injection Hidx as <-.
  destruct (nth_error X idx) as [row|] eqn:Erow; [|apply nth_error_None in Erow; lia].
  exists row, 0.5%float. auto.
Qed.

(** X7: in every round of [fit], the gradients the tree is built from are
    the labels minus what the trees of the earlier rounds of this call give
    on the training rows, accumulated as [predictSingle] accumulates before
    the sigmoid, from the base score 0.5. *)
Theorem fit_gradients_are_residuals this X y k gradients tree :
  length y <= length X ->
  let rounds := fit_rounds (Z.to_nat (numRounds this)) this X y (base_predictions y) in
  nth_error rounds k = Some (gradients, tree) ->
  gradients = residuals this (map tree_of_round (firstn k rounds)) X y.
Proof.
  intros Hlen rounds Hk.
  apply (fit_rounds_residuals _ this X y [] (base_predictions y) k gradients tree);
    [now apply base_predictions_track|exact Hk].
Qed.

Lemma fit_gradients_are_residuals_witness :
  let rounds := fit_rounds (Z.to_nat (numRounds two_rounds)) two_rounds X3 y3
                           (base_predictions y3) in
  [Some (-0.35000000001499998); Some 0.35000000000749998; Some 0.35000000000749998]%float
  = residuals two_rounds (map tree_of_round (firstn 1 rounds)) X3 y3.
Proof.
  apply (fit_gradients_are_residuals two_rounds X3 y3 1 _
           (Internal 0 1.5 (Leaf (-0.34999999997999998)) (Leaf 0.34999999998999998))).
  - simpl. lia.
  - vm_compute. reflexivity.
Defined.

(** * Further properties of prediction *)

(** X8: on any feature vector, the traversal returns the value of one of
    the leaves of the tree; it computes nothing of its own. *)
Theorem predict_returns_a_leaf x node :
  exists v, _predict (Some x) node = Ok v /\ In v (leaf_values node).
Proof.
  induction node as [v|f t l [vl [Hl Hinl]] r [vr [Hr Hinr]]]; simpl.
  - exists v. auto.
  - destruct (_ <=? _)%float; [exists vl | exists vr]; split; auto;
      apply in_or_app; auto.
Qed.

Lemma mapiM_from_Forall2 {A B : Type} (g : A -> result B) l :
  forall i bs,
    mapiM_from (fun x _ => g x) i l = Ok bs <-> Forall2 (fun x b => g x = Ok b) l bs.
Proof.
  induction l as [|a l IH]; intros i bs; simpl.
  - split; [intros [= <-]; constructor|intros H; inversion H; reflexivity].
  - split.
    + destruct (g a) as [b| |] eqn:Hb; simpl; try discriminate.
      destruct (mapiM_from _ (S i) l) as [bs'| |] eqn:Hbs; simpl; try discriminate.
      intros [= <-]. constructor; [exact Hb|]. now apply (IH (S i)).
    + intros H. inversion H as [|? b ? bs' Hb Hrest]; subst.
      rewrite Hb. simpl. apply (IH (S i)) in Hrest. now rewrite Hrest.
Qed.

(** X9: [predictBatch] returns one prediction per row, in the order of the
    rows, and each is what [predictSingle] returns on that row. *)
Theorem predictBatch_elementwise Math_exp this X :
  exists ps,
    predictBatch Math_exp this X = Ok ps /\
    Forall2 (fun x p => predictSingle Math_exp this x = Ok p) X ps.
Proof.
  destruct (predictBatch_defined Math_exp this X) as (ps & Hps & _).
  exists ps. split; [exact Hps|].
  now apply (mapiM_from_Forall2 (predictSingle Math_exp this) X 0 ps).
Qed.

Lemma predict_irrelevant_features x x' node :
  (forall f, 0 < splits_on f node -> nth_error x f = nth_error x' f) ->
  _predict (Some x) node = _predict (Some x') node.
Proof.
  induction node as [v|f t l IHl r IHr]; intros H; simpl; [reflexivity|].
  rewrite <- (H f) by (simpl; rewrite Nat.eqb_refl; lia).
  destruct (_ <=? _)%float; [apply IHl | apply IHr];
    intros f' Hf'; apply H; simpl; lia.
Qed.

Lemma predict_loop_irrelevant this x x' ts :
  (forall f, 0 < fold_right (fun tree n => splits_on f (root tree) + n) 0 ts ->
             nth_error x f = nth_error x' f) ->
  forall pred, predict_loop this x ts pred = predict_loop this x' ts pred.
Proof.
  induction ts as [|tree ts IH]; intros H pred; simpl; [reflexivity|].
  rewrite (predict_irrelevant_features x x' (root tree))
    by (intros f Hf; apply H; simpl; lia).
  destruct (_predict (Some x') (root tree)); simpl; try reflexivity.
  apply IH. intros f Hf. apply H. simpl. lia.
Qed.

(** X10: a prediction depends only on the features some Internal node of
    the ensemble splits on: two vectors that agree on those features (also
    in whether they have them) get the same prediction. *)
Theorem predictSingle_irrelevant_features Math_exp this x x' :
  (forall f, 0 < ensemble_splits_on f this -> nth_error x f = nth_error x' f) ->
  predictSingle Math_exp this x = predictSingle Math_exp this x'.
Proof.
  intros H. unfold predictSingle.
  now rewrite (predict_loop_irrelevant this x x' (trees this) H).
Qed.

Lemma predictSingle_irrelevant_features_witness :
  predictSingle (fun z => z) (fst (fit two_rounds X3 y3)) [1; 100]%float =
  predictSingle (fun z => z) (fst (fit two_rounds X3 y3)) [1]%float.
Proof.
  apply (predictSingle_irrelevant_features (fun z => z) (fst (fit two_rounds X3 y3))).
  intros [|[|f]] Hf; [reflexivity|vm_compute in Hf; lia|vm_compute in Hf; lia].
Defined.

(** * Further properties of feature importance and serialization *)

(** X11: the result of [getFeatureImportance] is as long as the largest
    [featureIndex + 1] over all trees.  Each entry was incremented once per
    Internal node that splits on its feature, starting from 0 below the size
    the first tree gives and from [undefined] at or beyond it; so an entry
    at or beyond that size is NaN as soon as its feature is used. *)
Theorem importance_shape this tree0 ts :
  trees this = tree0 :: ts ->
  length (getFeatureImportance this) = max_numFeatures this /\
  (forall f,
     get (getFeatureImportance this) f =
     Nat.iter (ensemble_splits_on f this) increment
              (if f <? _getNumFeatures (root tree0) then Some 0%float else None)) /\
  (forall f, _getNumFeatures (root tree0) <= f -> 0 < ensemble_splits_on f this ->
             get (getFeatureImportance this) f = Some nan).
Proof.
  intros Hts. split; [apply importance_length|]. split.
  - intros f. now apply (importance_entry this tree0 ts).
  - intros f Hf Hk. rewrite (importance_entry this tree0 ts f Hts).
    replace (f <? _getNumFeatures (root tree0)) with false
      by (symmetry; now apply Nat.ltb_ge).
    destruct (ensemble_splits_on f this) as [|k]; [lia|]. apply increment_undefined.
Qed.

Lemma importance_shape_witness :
  let this := fst (fit (constructor (params (Some 1%Z) (Some 2%Z))) X5 y5) in
  let tree0 := {| root := Internal 0 0.5 (Leaf 0) (Leaf 0.49999999998333333) |} in
  length (getFeatureImportance this) = max_numFeatures this /\
  (forall f,
     get (getFeatureImportance this) f =
     Nat.iter (ensemble_splits_on f this) increment
              (if f <? _getNumFeatures (root tree0) then Some 0%float else None)) /\
  (forall f, _getNumFeatures (root tree0) <= f -> 0 < ensemble_splits_on f this ->
             get (getFeatureImportance this) f = Some nan).
Proof.
  eapply (importance_shape (fst (fit (constructor (params (Some 1%Z) (Some 2%Z))) X5 y5))).
  vm_compute. reflexivity.
Defined.

Lemma features_below_numFeatures d node : features_below d node -> _getNumFeatures node <= d.
Proof.
  induction node as [v|f t l IHl r IHr]; simpl; [lia|].
  intros (Hf & Hl & Hr). specialize (IHl Hl). specialize (IHr Hr). lia.
Qed.

(** X12: for a model that had no trees, trained on rows of at most [d]
    features, [getFeatureImportance] has at most [d] entries. *)
Theorem importance_length_bound this X y d :
  trees this = [] ->
  Forall (fun row => length row <= d) X ->
  length (getFeatureImportance (fst (fit this X y))) <= d.
Proof.
  intros Hts HX. rewrite importance_length. unfold max_numFeatures, fit.
  rewrite fit_loop_trees, Hts. simpl trees.
  pose proof (fit_rounds_built (Z.to_nat (numRounds this)) this X y (base_predictions y))
    as Hb.
  induction Hb as [|[g tree] rounds Hg _ IH]; simpl; [lia|].
  apply (buildTree_fuel_features (length X) this X g 0 tree d HX) in Hg.
  apply features_below_numFeatures in Hg. lia.
Qed.

Lemma importance_length_bound_witness :
  length (getFeatureImportance (fst (fit two_rounds X3 y3))) <= 2.
Proof.
  apply (importance_length_bound two_rounds X3 y3 2).
  - reflexivity.
  - unfold X3. repeat constructor.
Defined.

(** X13: reading any JSON record, also one with missing or zero
    hyperparameters, gives a model that keeps the record's trees and that
    comes back unchanged from a further [toJSON] and [fromJSON]. *)
Theorem fromJSON_stable json :
  trees (fromJSON json) = j_trees json /\
  fromJSON (toJSON (fromJSON json)) = fromJSON json.
Proof.
  split; [reflexivity|]. unfold fromJSON at 2 3. cbv zeta. apply fromJSON_toJSON.
Qed.

(** * Properties of the test suite *)

Module FloatFacts.

Local Open Scope float_scope.

(** No number is both [=== 1] and [=== 0]. *)
Lemma eqb_one_zero a : (a =? 1) = true -> (a =? 0) = false.
Proof.
  rewrite !FloatAxioms.eqb_spec.
  destruct (Prim2SF a) as [s|s| |s m e]; try (destruct s); try discriminate; reflexivity.
Qed.

(** [|p - p| < 1e-6] holds exactly for a finite [p]: for an infinity and
    for NaN the difference is NaN. *)
Lemma self_close_finite p : (abs (p - p) <? 1e-6) = is_finite p.
Proof.
  destruct (is_finite p) eqn:Hp; [now apply FloatOrder.sub_self_small|].
  revert Hp. unfold is_finite, is_nan, is_infinity.
  rewrite !FloatAxioms.eqb_spec, FloatAxioms.ltb_spec, !FloatAxioms.abs_spec,
    FloatAxioms.sub_spec.
  change (Prim2SF infinity) with (S754_infinity false).
  destruct (Prim2SF p) as [s|s| |s m e]; intros Hp.
  - destruct s; discriminate.
  - destruct s; reflexivity.
  - reflexivity.
  - exfalso. revert Hp. unfold SFeqb. simpl.
    destruct s; rewrite Z.compare_refl;
      change (Pos.compare_cont Eq m m) with (Pos.compare m m);
      rewrite Pos.compare_refl; discriminate.
Qed.

Lemma or_default_is_num x : is_num (or_default (Some x) 0).
Proof.
  unfold or_default, truthy, is_num. destruct (PrimFloat.is_zero x); simpl; [reflexivity|].
  unfold PrimFloat.is_nan. destruct (x =? x) eqn:Hx; simpl; [exact Hx|reflexivity].
Qed.

End FloatFacts.

Module TesterFacts.

Import Tester.

Lemma strict_eq_exclusive (b : value) :
  strict_eq b (Some 1%float) = true -> strict_eq b (Some 0%float) = false.
Proof. destruct b as [x|]; simpl; [apply FloatFacts.eqb_one_zero|discriminate]. Qed.

Lemma count_step_total bp c a i :
  total (count_step bp c a i) = total c + (if counted bp a i then 1 else 0).
Proof.
  unfold count_step, counted.
  pose proof (strict_eq_exclusive (Some a)) as Ha.
  pose proof (strict_eq_exclusive (nth_error bp i)) as Hb.
  destruct (strict_eq (Some a) (Some 1%float));
    destruct (strict_eq (Some a) (Some 0%float));
    destruct (strict_eq (nth_error bp i) (Some 1%float));
    destruct (strict_eq (nth_error bp i) (Some 0%float));
    try (specialize (Ha eq_refl); discriminate);
    try (specialize (Hb eq_refl); discriminate);
    unfold total; simpl; lia.
Qed.

Lemma count_loop_total bp actual :
  forall i c,
    total (count_loop bp actual i c) <= total c + length actual /\
    ((forall j a, nth_error actual j = Some a -> counted bp a (i + j) = true) ->
     total (count_loop bp actual i c) = total c + length actual).
Proof.
  induction actual as [|a actual IH]; intros i c; simpl; [split; intros; lia|].
  destruct (IH (S i) (count_step bp c a i)) as [Hle Heq].
  rewrite count_step_total in Hle. split.
  - destruct (counted bp a i); lia.
  - intros Hall. rewrite Heq.
    + rewrite count_step_total. specialize (Hall 0 a eq_refl).
      rewrite Nat.add_0_r in Hall. rewrite Hall. lia.
    + intros j a' Hj. specialize (Hall (S j) a' Hj). now rewrite Nat.add_succ_r in Hall.
Qed.

Lemma binaryPreds_counted predictions i :
  i < length predictions ->
  strict_eq (nth_error (binaryPreds predictions) i) (Some 1%float) ||
  strict_eq (nth_error (binaryPreds predictions) i) (Some 0%float) = true.
Proof.
  intros Hi. unfold binaryPreds. rewrite nth_error_map.
  destruct (nth_error predictions i) as [p|] eqn:Ep; [|apply nth_error_None in Ep; lia].
  simpl. destruct (0.5 <=? p)%float; reflexivity.
Qed.

Lemma confusion_total_le predictions actual :
  total (confusion predictions actual) <= length actual.
Proof.
  unfold confusion.
  destruct (count_loop_total (binaryPreds predictions) actual 0
                             {| tp := 0; fp := 0; tn := 0; fn := 0 |}) as [H _].
  exact H.
Qed.

Lemma confusion_total_eq predictions actual :
  Forall (fun a => a = 1%float \/ a = 0%float) actual ->
  length actual <= length predictions ->
  total (confusion predictions actual) = length actual.
Proof.
  intros Hlabels Hlen. unfold confusion.
  destruct (count_loop_total (binaryPreds predictions) actual 0
                             {| tp := 0; fp := 0; tn := 0; fn := 0 |}) as [_ H].
  rewrite H; [reflexivity|].
  intros j a Hj. unfold counted. simpl (0 + j).
  rewrite binaryPreds_counted.
  - rewrite Forall_forall in Hlabels.
    destruct (Hlabels a (nth_error_In _ _ Hj)) as [-> | ->]; reflexivity.
  - assert (j < length actual) by (apply nth_error_Some; congruence). lia.
Qed.

(** X14: [calculateMetrics] counts every sample at most once, so
    [tp + fp + tn + fn] is at most the number of labels; it is the number of
    labels when every label is 1 or 0 and there are at least as many
    predictions as labels. *)
Theorem calculateMetrics_counts predictions actual :
  total (confusion predictions actual) <= length actual /\
  (Forall (fun a => a = 1%float \/ a = 0%float) actual ->
   length actual <= length predictions ->
   total (confusion predictions actual) = length actual).
Proof. split; [apply confusion_total_le|apply confusion_total_eq]. Qed.

Lemma calculateMetrics_counts_witness :
  total (confusion [0.9; 0.2; 0.7]%float [1; 0; 0]%float) = 3.
Proof.
  apply (proj2 (calculateMetrics_counts [0.9; 0.2; 0.7]%float [1; 0; 0]%float)).
  - constructor; [now left|]. constructor; [now right|]. constructor; [now right|].
    constructor.
  - simpl. lia.
Defined.

(** X15: [precision], [recall] and [f1] are never NaN, thanks to their
    [|| 0]; [accuracy] has no such fallback, and with no labels it is NaN
    (0 / 0) while the other three are 0. *)
Theorem calculateMetrics_nan predictions actual :
  is_num (precision (calculateMetrics predictions actual)) /\
  is_num (recall (calculateMetrics predictions actual)) /\
  is_num (f1 (calculateMetrics predictions actual)) /\
  calculateMetrics predictions [] =
  {| accuracy := nan; precision := 0; recall := 0; f1 := 0 |}.
Proof.
  unfold calculateMetrics. cbv zeta. cbn [precision recall f1].
  repeat split; try apply FloatFacts.or_default_is_num.
Qed.

End TesterFacts.

Module GeneratorFacts.

Import Tester.

Section Shape.

Variable Math_random : nat -> float.

Lemma well_shaped_snoc n X y x1 x2 label :
  well_shaped n (X, y) -> label = 1%float \/ label = 0%float ->
  well_shaped (S n) (X ++ [[x1; x2]], y ++ [label]).
Proof.
  intros (HX & Hy & Hrows & Hlabels) Hlabel. unfold well_shaped. simpl in *.
  rewrite !length_app. simpl. repeat split; try lia.
  - apply Forall_app. split; [exact Hrows|]. constructor; [reflexivity|constructor].
  - apply Forall_app. split; [exact Hlabels|]. constructor; [exact Hlabel|constructor].
Qed.

Lemma generateBinaryData_loop_shape n :
  forall k m X y,
    well_shaped m (X, y) ->
    well_shaped (m + n) (fst (generateBinaryData_loop Math_random n k X y)) /\
    snd (generateBinaryData_loop Math_random n k X y) = k + 2 * n.
Proof.
  induction n as [|n IH]; intros k m X y H; simpl.
  - rewrite Nat.add_0_r. split; [exact H|lia].
  - match goal with
    | |- context [generateBinaryData_loop _ n ?k' ?X' ?y'] =>
        destruct (IH k' (S m) X' y') as [Hs Hk]
    end.
    + apply well_shaped_snoc; [exact H|].
      destruct (10 <? _)%float; [now left|now right].
    + rewrite Hk. split; [|lia]. now replace (m + S n) with (S m + n) by lia.
Qed.

Lemma generateNonlinearData_loop_shape n :
  forall k m X y,
    well_shaped m (X, y) ->
    well_shaped (m + n) (fst (generateNonlinearData_loop Math_random n k X y)) /\
    snd (generateNonlinearData_loop Math_random n k X y) = k + 2 * n.
Proof.
  induction n as [|n IH]; intros k m X y H; simpl.
  - rewrite Nat.add_0_r. split; [exact H|lia].
  - match goal with
    | |- context [generateNonlinearData_loop _ n ?k' ?X' ?y'] =>
        destruct (IH k' (S m) X' y') as [Hs Hk]
    end.
    + apply well_shaped_snoc; [exact H|].
      destruct (_ <? 16)%float; [now left|now right].
    + rewrite Hk. split; [|lia]. now replace (m + S n) with (S m + n) by lia.
Qed.

Lemma generateNoisyData_loop_shape n :
  forall k m X y,
    well_shaped m (X, y) ->
    well_shaped (m + n) (fst (generateNoisyData_loop Math_random n k X y)) /\
    snd (generateNoisyData_loop Math_random n k X y) = k + 3 * n.
Proof.
  induction n as [|n IH]; intros k m X y H; simpl.
  - rewrite Nat.add_0_r. split; [exact H|lia].
  - match goal with
    | |- context [generateNoisyData_loop _ n ?k' ?X' ?y'] =>
        destruct (IH k' (S m) X' y') as [Hs Hk]
    end.
    + apply well_shaped_snoc; [exact H|].
      destruct (_ <? 0.1)%float; destruct (10 <? _)%float;
        first [now left | now right].
    + rewrite Hk. split; [|lia]. now replace (m + S n) with (S m + n) by lia.
Qed.

Lemma well_shaped_nil : well_shaped 0 ([], []).
Proof. repeat split; constructor. Qed.

Lemma generateBinaryData_shape n k :
  well_shaped n (fst (generateBinaryData Math_random n k)) /\
  snd (generateBinaryData Math_random n k) = k + 2 * n.
Proof. apply (generateBinaryData_loop_shape n k 0 [] [] well_shaped_nil). Qed.

(** X16: [generateDataset] throws for every type other than ['binary'],
    ['nonlinear'] and ['noisy']; for these it returns [n] rows of two
    features with [n] labels, each 1 or 0 (also after the label noise), and
    has drawn [2n], [2n] and [3n] random numbers. *)
Theorem generateDataset_shape type n k :
  match generateDataset Math_random type n k with
  | inl (data, k') =>
      well_shaped n data /\
      (type = "binary"%string /\ k' = k + 2 * n \/
       type = "nonlinear"%string /\ k' = k + 2 * n \/
       type = "noisy"%string /\ k' = k + 3 * n)
  | inr e =>
      e = Error "Unknown dataset type"%string /\
      type <> "binary"%string /\ type <> "nonlinear"%string /\ type <> "noisy"%string
  end.
Proof.
  unfold generateDataset.
  destruct (String.eqb_spec type "binary"%string) as [-> | H1].
  { destruct (generateBinaryData_shape n k) as [Hs Hk].
    destruct (generateBinaryData Math_random n k) as [data k']. simpl in *. auto. }
  destruct (String.eqb_spec type "nonlinear"%string) as [-> | H2].
  { destruct (generateNonlinearData_loop_shape n k 0 [] [] well_shaped_nil) as [Hs Hk].
    unfold generateNonlinearData.
    destruct (generateNonlinearData_loop Math_random n k [] []) as [data k'].
    simpl in *. auto. }
  destruct (String.eqb_spec type "noisy"%string) as [-> | H3].
  { destruct (generateNoisyData_loop_shape n k 0 [] [] well_shaped_nil) as [Hs Hk].
    unfold generateNoisyData.
    destruct (generateNoisyData_loop Math_random n k [] []) as [data k'].
    simpl in *. auto 6. }
  auto.
Qed.

End Shape.

End GeneratorFacts.

Module TestRuns.

Import Tester.

Lemma fit_ok this X y : length y <= length X -> snd (fit this X y) = Ok tt.
Proof. intros H. apply fit_loop_ok; [apply base_predictions_length|exact H]. Qed.

Lemma train_ok params data :
  length (snd data) <= length (fst data) ->
  train params data = Ok (fst (fit (constructor params) (fst data) (snd data))).
Proof.
  intros H. unfold train. pose proof (fit_ok (constructor params) _ _ H) as Hok.
  destruct (fit (constructor params) (fst data) (snd data)) as [model r].
  simpl in Hok. subst r. reflexivity.
Qed.

(** The trees of a model that had none, trained on rows of at most [d]
    features, split on features below [d]. *)
Lemma fit_trees_features this X y d :
  trees this = [] ->
  Forall (fun row => length row <= d) X ->
  Forall (fun tree => features_below d (root tree)) (trees (fst (fit this X y))).
Proof.
  intros Hts HX. unfold fit. rewrite fit_loop_trees, Hts. simpl.
  apply Forall_map. eapply Forall_impl; [|apply fit_rounds_built].
  intros [g tree] Hb. simpl in *.
  exact (buildTree_fuel_features (length X) this X g 0 tree d HX Hb).
Qed.

Lemma numFeatures_two node :
  features_below 2 node ->
  _getNumFeatures node <= 2 /\ (_getNumFeatures node = 2 <-> 0 < splits_on 1 node).
Proof.
  induction node as [v|f t l IHl r IHr];
    cbn [_getNumFeatures splits_on features_below]; [lia|].
  intros (Hf & Hl & Hr). specialize (IHl Hl). specialize (IHr Hr).
  destruct (Nat.eqb_spec f 1) as [-> | Hne]; lia.
Qed.

Lemma max_numFeatures_two this :
  Forall (fun tree => features_below 2 (root tree)) (trees this) ->
  max_numFeatures this <= 2 /\
  (max_numFeatures this = 2 <-> 0 < ensemble_splits_on 1 this).
Proof.
  unfold max_numFeatures, ensemble_splits_on.
  induction 1 as [|tree ts Htree _ IH]; cbn [fold_right]; [lia|].
  apply numFeatures_two in Htree. lia.
Qed.

Lemma every_number_true importance : every_number importance = true.
Proof.
  unfold every_number. apply forallb_forall. now intros [x|] _.
Qed.

Lemma arePredsEqual_self ps : arePredsEqual ps ps = forallb is_finite ps.
Proof.
  unfold arePredsEqual, mapi.
  change ps with ([] ++ ps) at 1. change 0 with (length (@nil float)).
  generalize (@nil float) as pre.
  induction ps as [|p ps IH]; intros pre; simpl; [reflexivity|].
  rewrite nth_error_app2, Nat.sub_diag by lia. simpl.
  rewrite FloatFacts.self_close_finite. f_equal.
  specialize (IH (pre ++ [p])). rewrite length_app, <- app_assoc in IH. simpl in IH.
  now rewrite Nat.add_1_r in IH.
Qed.

Lemma well_shaped_arity n data :
  well_shaped n data ->
  length (snd data) <= length (fst data) /\
  Forall (fun row => length row <= 2) (fst data).
Proof.
  intros (HX & Hy & Hrows & _). split; [lia|].
  eapply Forall_impl; [|exact Hrows]. simpl. intros; lia.
Qed.

Section Runs.

Variable Math_random : nat -> float.
Variable Math_exp : float -> float.
Variable join : list value -> String.string.

(** X17: whatever [Math.random] and [Math.exp] return,
    [testBasicClassification] never reaches its [catch] clause: it pushes one
    result without [error], computed from 200 predictions of which every
    one is counted in the confusion counters, after 2400 calls of
    [Math.random]. *)
Theorem testBasicClassification_runs testResults k :
  exists predictions y_test,
    length predictions = 200 /\
    total (confusion predictions y_test) = 200 /\
    testBasicClassification Math_random Math_exp testResults k =
    Ok (testResults ++
        [{| name := "Basic Classification"%string;
            passed := (0.7 <? accuracy (calculateMetrics predictions y_test))%float;
            metrics := Some (calculateMetrics predictions y_test);
            details := None; error := None |}],
        k + 2400).
Proof.
  unfold testBasicClassification.
  change (generateDataset Math_random "binary"%string 1000 k)
    with (@inl _ exn (generateBinaryData Math_random 1000 k)).
  destruct (GeneratorFacts.generateBinaryData_shape Math_random 1000 k) as [Hs1 Hk1].
  destruct (generateBinaryData Math_random 1000 k) as [train_set k1].
  cbn [fst snd] in Hs1, Hk1. subst k1.
  change (generateDataset Math_random "binary"%string 200 (k + 2 * 1000))
    with (@inl _ exn (generateBinaryData Math_random 200 (k + 2 * 1000))).
  destruct (GeneratorFacts.generateBinaryData_shape Math_random 200 (k + 2 * 1000))
    as [Hs2 Hk2].
  destruct (generateBinaryData Math_random 200 (k + 2 * 1000)) as [test_set k2].
  cbn [fst snd] in Hs2, Hk2. subst k2.
  rewrite train_ok by (apply (well_shaped_arity 1000), Hs1).
  cbn [JS.bind].
  match goal with
  | |- context [predictBatch Math_exp ?m (fst test_set)] =>
      destruct (predictBatch_defined Math_exp m (fst test_set)) as (ps & Hps & Hlen);
      rewrite Hps
  end.
  destruct Hs2 as (HX & Hy & _ & Hlabels).
  exists ps, (snd test_set). split; [congruence|]. split.
  - rewrite TesterFacts.confusion_total_eq; [exact Hy|exact Hlabels|lia].
  - do 2 f_equal. lia.
Qed.

(** X18: [testModelSerialization] never reaches its [catch] clause, and the
    restored model never makes it fail: with [preds] the 100 predictions of
    the model trained for 10 rounds on the generated rows, on those rows, it
    passes exactly when each of them is a finite number. *)
Theorem testModelSerialization_runs testResults k :
  let train_set := fst (generateBinaryData Math_random 100 k) in
  let model :=
    fst (fit (constructor {| p_learningRate := None; p_maxDepth := None;
                             p_minChildWeight := None; p_numRounds := Some 10%Z |})
             (fst train_set) (snd train_set)) in
  exists preds,
    predictBatch Math_exp model (fst train_set) = Ok preds /\
    length preds = 100 /\
    testModelSerialization Math_random Math_exp testResults k =
    Ok (testResults ++
        [{| name := "Model Serialization"%string;
            passed := forallb is_finite preds;
            metrics := None;
            details := Some (if forallb is_finite preds
                             then "Predictions match after serialization"%string
                             else "Predictions differ"%string);
            error := None |}],
        k + 200).
Proof.
  cbv zeta. unfold testModelSerialization.
  change (generateDataset Math_random "binary"%string 100 k)
    with (@inl _ exn (generateBinaryData Math_random 100 k)).
  destruct (GeneratorFacts.generateBinaryData_shape Math_random 100 k) as [Hs1 Hk1].
  destruct (generateBinaryData Math_random 100 k) as [train_set k1].
  cbn [fst snd] in Hs1, Hk1 |- *. subst k1.
  rewrite train_ok by (apply (well_shaped_arity 100), Hs1).
  cbn [JS.bind]. cbv zeta.
  rewrite (fit_with_trees (constructor _) (fst train_set) (snd train_set)).
  rewrite fromJSON_toJSON.
  rewrite <- (fit_with_trees (constructor _) (fst train_set) (snd train_set)).
  match goal with
  | |- context [predictBatch Math_exp ?m (fst train_set)] =>
      destruct (predictBatch_defined Math_exp m (fst train_set)) as (ps & Hps & Hlen);
      rewrite Hps
  end.
  cbn [JS.bind]. rewrite arePredsEqual_self.
  destruct Hs1 as (HX & _).
  exists ps. split; [reflexivity|]. split; [congruence|]. reflexivity.
Qed.

(** X19: [testFeatureImportance] never reaches its [catch] clause; it passes
    exactly when some Internal node of the trained model splits on the
    second feature, whatever the entries of the importance array are. *)
Theorem testFeatureImportance_runs testResults k :
  exists model,
    max_numFeatures model <= 2 /\
    testFeatureImportance Math_random join testResults k =
    Ok (testResults ++
        [{| name := "Feature Importance"%string;
            passed := 0 <? ensemble_splits_on 1 model;
            metrics := None;
            details := Some (String.append "Feature importance scores: "%string
                                           (join (getFeatureImportance model)));
            error := None |}],
        k + 200).
Proof.
  unfold testFeatureImportance.
  change (generateDataset Math_random "binary"%string 100 k)
    with (@inl _ exn (generateBinaryData Math_random 100 k)).
  destruct (GeneratorFacts.generateBinaryData_shape Math_random 100 k) as [Hs1 Hk1].
  destruct (generateBinaryData Math_random 100 k) as [train_set k1].
  cbn [fst snd] in Hs1, Hk1. subst k1.
  destruct (well_shaped_arity 100 _ Hs1) as [Hlen Harity].
  rewrite train_ok by exact Hlen. cbv zeta.
  match goal with
  | |- context [getFeatureImportance ?m] => set (model := m)
  end.
  assert (Hfeat : Forall (fun tree => features_below 2 (root tree)) (trees model))
    by (apply fit_trees_features; [reflexivity|exact Harity]).
  destruct (max_numFeatures_two model Hfeat) as [Hle Hiff].
  exists model. split; [exact Hle|].
  rewrite every_number_true, andb_true_r, importance_length.
  replace (max_numFeatures model =? 2) with (0 <? ensemble_splits_on 1 model).
  - reflexivity.
  - destruct (Nat.ltb_spec 0 (ensemble_splits_on 1 model)) as [H | H];
      destruct (Nat.eqb_spec (max_numFeatures model) 2) as [E | E];
      try reflexivity; exfalso; lia.
Qed.

End Runs.

End TestRuns.

(** * The leaves of a built tree *)

Lemma grads_seq gradients : grads gradients (seq 0 (length gradients)) = gradients.
Proof.
  unfold grads. apply nth_error_ext. intros n.
  rewrite nth_error_map, nth_error_seq.
  destruct (n <? length gradients) eqn:Hn; simpl.
  - apply Nat.ltb_lt in Hn. unfold get.
    destruct (nth_error gradients n) eqn:E; [reflexivity|].
    apply nth_error_None in E. lia.
  - apply Nat.ltb_ge in Hn. symmetry. now apply nth_error_None.
Qed.

Lemma nth_seq_self (l : list nat) : map (fun j => nth j l 0) (seq 0 (length l)) = l.
Proof.
  apply nth_error_ext. intros n. rewrite nth_error_map, nth_error_seq.
  destruct (n <? length l) eqn:Hn; simpl.
  - apply Nat.ltb_lt in Hn. symmetry. now apply nth_error_nth'.
  - apply Nat.ltb_ge in Hn. symmetry. now apply nth_error_None.
Qed.

(** The gradients of a sample of a child call are the gradients of the
    sample of the parent call it stands for. *)
Lemma grads_grads gradients indices part :
  Forall (fun j => j < length indices) part ->
  grads (grads gradients indices) part =
  grads gradients (map (fun j => nth j indices 0) part).
Proof.
  intros Hpart. unfold grads. rewrite map_map. apply map_ext_in.
  intros j Hj. rewrite Forall_forall in Hpart. specialize (Hpart j Hj).
  unfold get at 1. rewrite nth_error_map.
  now rewrite (nth_error_nth' indices 0 Hpart).
Qed.

Lemma parts_in_range (parts : list (list nat)) n :
  Permutation (concat parts) (seq 0 n) ->
  Forall (Forall (fun j => j < n)) parts.
Proof.
  intros Hperm. apply Forall_forall. intros part Hpart.
  apply Forall_forall. intros j Hj.
  assert (Hin : In j (concat parts)) by (apply in_concat; eauto).
  apply (Permutation_in _ Hperm), in_seq in Hin. lia.
Qed.

Lemma leaf_values_remap gradients indices parts :
  Permutation (concat parts) (seq 0 (length indices)) ->
  map (leaf_value_of (grads gradients indices)) parts =
  map (leaf_value_of gradients) (map (map (fun j => nth j indices 0)) parts) /\
  Permutation (concat (map (map (fun j => nth j indices 0)) parts)) indices.
Proof.
  intros Hperm. split.
  - rewrite map_map. apply map_ext_in. intros part Hpart.
    pose proof (parts_in_range parts _ Hperm) as Hrange.
    rewrite Forall_forall in Hrange. unfold leaf_value_of.
    now rewrite grads_grads, length_map by (apply Hrange, Hpart).
  - rewrite <- concat_map. rewrite (Permutation_map _ Hperm). now rewrite nth_seq_self.
Qed.

Lemma buildTree_fuel_parts fuel :
  forall this X gradients depth node,
    length X = length gradients ->
    buildTree_fuel fuel this X gradients depth = Ok node ->
    exists parts,
      Permutation (concat parts) (seq 0 (length X)) /\
      leaf_values node = map (leaf_value_of gradients) parts.
Proof.
  assert (Hleaf : forall (X : list (list float)) (gradients : list value),
            length X = length gradients ->
            exists parts,
              Permutation (concat parts) (seq 0 (length X)) /\
              leaf_values (leaf_of (sum_of gradients) (of_nat (length gradients))) =
              map (leaf_value_of gradients) parts).
  { intros X gradients Hlen. exists [seq 0 (length X)]. simpl. rewrite app_nil_r.
    split; [reflexivity|]. unfold leaf_value_of.
    now rewrite Hlen, grads_seq, length_seq. }
  induction fuel as [|fuel IH]; intros this X gradients depth node Hlen;
    rewrite buildTree_fuel_unfold; cbv zeta;
    (destruct (stop _ _ _ _); [intros [= <-]; now apply Hleaf|]);
    (destruct (findBestSplit _ _ _ _) as [best| |] eqn:Hfind; cbn [JS.bind];
     try discriminate);
    (destruct (snd best) as [s|] eqn:Hs; [|intros [= <-]; now apply Hleaf]);
    (destruct (fst best <? eps)%float; [intros [= <-]; now apply Hleaf|]);
    [discriminate|].
  pose proof (findBestSplit_valid _ _ _ _ _ Hfind s Hs) as Hv.
  destruct (buildTree_fuel fuel this (rows X (leftIndices s)) _ _) as [l| |] eqn:El;
    cbn [JS.bind]; try discriminate.
  destruct (buildTree_fuel fuel this (rows X (rightIndices s)) _ _) as [r| |] eqn:Er;
    cbn [JS.bind]; try discriminate.
  intros [= <-].
  apply IH in El; [|now rewrite rows_length, grads_length].
  apply IH in Er; [|now rewrite rows_length, grads_length].
  destruct El as (pl & Hpl & Hvl). destruct Er as (pr & Hpr & Hvr).
  rewrite rows_length in Hpl, Hpr.
  destruct (leaf_values_remap gradients _ _ Hpl) as [El Pl].
  destruct (leaf_values_remap gradients _ _ Hpr) as [Er Pr].
  exists (map (map (fun j => nth j (leftIndices s) 0)) pl ++
          map (map (fun j => nth j (rightIndices s) 0)) pr).
  split.
  - rewrite concat_app, Pl, Pr. now apply valid_split_perm.
  - cbn [leaf_values]. now rewrite Hvl, Hvr, El, Er, map_app.
Qed.

(** X20: the leaves of a tree built from as many samples as gradients
    partition the samples: there is one group of sample indices per leaf,
    left to right, the groups together are the indices [0 .. X.length-1]
    once each, and the value of each leaf is [sumGrad / (count + 1e-10)]
    over the gradients of its group. *)
Theorem buildTree_leaves_partition this X gradients depth node :
  length X = length gradients ->
  _buildTree this X gradients depth = Ok node ->
  exists parts,
    Permutation (concat parts) (seq 0 (length X)) /\
    leaf_values node = map (leaf_value_of gradients) parts.
Proof. intros Hlen. now apply buildTree_fuel_parts. Qed.

Lemma buildTree_leaves_partition_witness :
  exists parts,
    Permutation (concat parts) (seq 0 (length X3)) /\
    leaf_values (Internal 0 1.5 (Leaf (-0.49999999995)) (Leaf 0.499999999975)) =
    map (leaf_value_of (gradients_of y3 (base_predictions y3))) parts.
Proof.
  apply (buildTree_leaves_partition two_rounds X3 (gradients_of y3 (base_predictions y3)) 0).
  - reflexivity.
  - vm_compute. reflexivity.
Defined.
